(** * A linked-list queue of C strings (queue.c)

    Shallow embedding of [queue.c]: the list elements live in a heap
    indexed by addresses, a pointer is an optional address ([None] is
    [NULL]), and every function of the file is a function on heaps and
    queue records.  A result of [None] stands for a run that has no
    defined result in C (a dereference of [NULL] or of a freed element,
    an access outside an allocated block or outside the caller's
    buffer) or, for the loops and the recursive sorts, for a run that
    needed more iterations than the [fuel] it was given. *)

From Stdlib Require Import ZArith Lia List Permutation Sorted.
From Stdlib Require Import Strings.Byte Strings.String.
From stdpp Require Import base option list gmap sorting.

Local Open Scope Z_scope.

(** ** Machine integers *)

(** [int] is 32 bits wide.  A value that does not fit is reduced modulo
    [2^32] into the signed range: this is the conversion from [size_t]
    of the compilers the file is built with, and the model uses it for
    [size++] and [size--] as well.  The theorems that depend on the
    value of an [int] keep it in range. *)
Definition INT_MAX : Z := 2147483647.
Definition to_int (z : Z) : Z := (z + 2 ^ 31) mod 2 ^ 32 - 2 ^ 31.

(** ** C strings *)

Definition NUL : byte := x00.

(** The code of a character as [unsigned char], the way [strcmp]
    compares. *)
Definition uchar (b : byte) : Z := Z.of_N (Byte.to_N b).

(** A [char *] is modelled by the bytes found at the pointer.  The
    string it denotes stops before the first [NUL]; the end of the list
    reads as the terminator. *)
Fixpoint c_str (p : list byte) : list byte :=
  match p with
  | [] => []
  | b :: p' => if Byte.eqb b NUL then [] else b :: c_str p'
  end.

Definition strlen (p : list byte) : Z := Z.of_nat (length (c_str p)).

(** The bytes of a string literal. *)
Definition str (s : string) : list byte := list_byte_of_string s.

(** [strcmp]: the difference of the first two characters that differ,
    read as [unsigned char]; [0] when both strings end together.  (C
    fixes the sign of the result only, and the code tests nothing
    else.) *)
Fixpoint strcmp (a b : list byte) : Z :=
  match a, b with
  | [], [] => 0
  | [], y :: _ => 0 - uchar y
  | x :: _, [] => uchar x
  | x :: a', y :: b' =>
      if Byte.eqb x y
      then (if Byte.eqb x NUL then 0 else strcmp a' b')
      else uchar x - uchar y
  end.

(** The caller's output buffer, as the bytes at offsets from [sp].  A
    write is recorded at the offset the code computes; the object has
    the [bufsize] bytes the caller hands it in with, and
    [q_remove_head] checks the offsets against that (see
    [in_buffer]). *)
Definition buffer : Type := Z -> byte.

(** [strncpy (dst, src, n)] writes exactly [n] bytes: the characters of
    [src] up to its terminator, then [NUL]s. *)
Definition strncpy (dst : buffer) (src : list byte) (n : Z) : buffer :=
  fun i => if (0 <=? i) && (i <? n) then nth (Z.to_nat i) (c_str src) NUL else dst i.

(** [b[i] = x] *)
Definition poke (b : buffer) (i : Z) (x : byte) : buffer :=
  fun j => if j =? i then x else b j.

(** The first [n] bytes of a buffer. *)
Definition peek (b : buffer) (n : nat) : list byte :=
  map (fun i => b (Z.of_nat i)) (seq 0 n).

(** ** Heap, list elements, queue *)

Definition addr : Type := positive.
Definition ptr : Type := option addr.

(** [list_ele_t].  [value] points to a buffer that this element alone
    owns; the model keeps the bytes of that buffer in the element, so
    that exchanging two [value] pointers exchanges the bytes, and the
    [malloc] and [free] of the buffer show in the success flag of the
    first and in nothing else. *)
Record list_ele_t : Type := ListEle { value : list byte; next : ptr }.

(** Modelled from the spec: the declaration of [queue_t] is in queue.h,
    which is not part of the sources; the spec gives it the fields
    [head], [tail] and [size], and [q_size] returns [size] as an
    [int]. *)
Record queue_t : Type := Queue { head : ptr; tail : ptr; size : Z }.

Abbreviation heap := (gmap addr list_ele_t).

(** The state a call works on: the live list elements, and what the
    queue pointer [q] of the call refers to ([None] for [NULL]). *)
Record world : Type := World { mem : heap; qref : option queue_t }.

(** [malloc] of a list element either fails or returns a block that is
    not live.  Whether it fails is decided by the environment: the flag
    [ok]. *)
Definition malloc (ok : bool) (h : heap) : ptr :=
  if ok then Some (fresh (dom h)) else None.

(** The contents of a block that has just been allocated. *)
Definition blank : list_ele_t := ListEle [] None.

(** [a->value = v] and [a->next = p]. *)
Definition set_value (h : heap) (a : addr) (v : list byte) : option heap :=
  e ← h !! a; Some (<[a := ListEle v (next e)]> h).

Definition set_next (h : heap) (a : addr) (p : ptr) : option heap :=
  e ← h !! a; Some (<[a := ListEle (value e) p]> h).

(** [free (a)] *)
Definition free (h : heap) (a : addr) : option heap :=
  _ ← h !! a; Some (delete a h).

Section Queue.

(** The width of [size_t] in bits: 32 or 64 on the platforms the file
    is built for, and never less than that of [int] here. *)
Variable size_bits : Z.
Hypothesis size_bits_min : 32 <= size_bits.

Definition size_mod : Z := 2 ^ size_bits.
Definition size_add (a b : Z) : Z := (a + b) mod size_mod.
Definition size_sub (a b : Z) : Z := (a - b) mod size_mod.
(** An [int] used where a [size_t] is expected. *)
Definition to_size (z : Z) : Z := z mod size_mod.

(** ** q_new, q_free *)

(** [q_new]: the queue record is not kept in the heap of the list
    elements; [ok] tells whether its [malloc] succeeds. *)
Definition q_new (ok : bool) : world :=
  World ∅ (if ok then Some (Queue None None 0) else None).

(** [q_free]: the result is the heap it leaves. *)
Fixpoint q_free_loop (fuel : nat) (h : heap) (q : queue_t) : option heap :=
  match head q with
  | None => Some h
  | Some tmp =>
      match fuel with
      | O => None
      | S fuel' =>
          e ← h !! tmp;
          h1 ← free h tmp;
          q_free_loop fuel' h1 (Queue (next e) (tail q) (to_int (size q - 1)))
      end
  end.

Definition q_free (fuel : nat) (w : world) : option heap :=
  match qref w with
  | None => Some (mem w)
  | Some q => q_free_loop fuel (mem w) q
  end.

(** ** q_insert_head, q_insert_tail *)

(** The block of [to_size len] bytes the two insertions fill: [memcpy]
    writes [to_size (len - 1)] bytes of [s] into it, then the terminator
    goes to index [len - 1].  Both stay inside the block exactly when
    [in_block len] holds, and the block then is [copy_of s len]. *)
Definition in_block (len : Z) : bool :=
  (0 <=? len - 1) && (len - 1 <? to_size len).

Definition copy_of (s : list byte) (len : Z) : list byte :=
  take (Z.to_nat (to_size (len - 1))) s ++ [NUL].

Definition q_insert_head (ok_node ok_value : bool) (w : world) (s : list byte)
  : option (world * bool) :=
  match qref w with
  | None => Some (w, false)
  | Some q =>
      match malloc ok_node (mem w) with
      | None => Some (w, false)
      | Some newh =>
          let h1 := <[newh := blank]> (mem w) in
          let len := to_int (size_add (strlen s) 1) in
          if negb ok_value then
            h2 ← free h1 newh; Some (World h2 (Some q), false)
          else if negb (in_block len) then None
          else
            h2 ← set_value h1 newh (copy_of s len);
            h3 ← set_next h2 newh (head q);
            let q1 := Queue (Some newh) (tail q) (to_int (size q + 1)) in
            let q2 := match tail q1 with
                      | None => Queue (head q1) (Some newh) (size q1)
                      | Some _ => q1
                      end in
            Some (World h3 (Some q2), true)
      end
  end.

Definition q_insert_tail (ok_node ok_value : bool) (w : world) (s : list byte)
  : option (world * bool) :=
  match qref w with
  | None => Some (w, false)
  | Some q =>
      match malloc ok_node (mem w) with
      | None => Some (w, false)
      | Some newt =>
          let h1 := <[newt := blank]> (mem w) in
          let len := to_int (size_add (strlen s) 1) in
          h2 ← set_next h1 newt None;
          if negb ok_value then
            h3 ← free h2 newt; Some (World h3 (Some q), false)
          else if negb (in_block len) then None
          else
            h3 ← set_value h2 newt (copy_of s len);
            '(h4, q1) ← match tail q with
                        | None => Some (h3, Queue (Some newt) (Some newt) (size q))
                        | Some t =>
                            h4 ← set_next h3 t (Some newt);
                            Some (h4, Queue (head q) (Some newt) (size q))
                        end;
            Some (World h4 (Some (Queue (head q1) (tail q1) (to_int (size q1 + 1)))), true)
      end
  end.

(** ** q_remove_head, q_size *)

(** The buffer has the [bufsize] bytes the caller says it has.
    [strncpy (sp, tmp->value, bufsize - 1)] writes the offsets below
    [bufsize - 1] and [sp[bufsize - 1] = 0] the offset [bufsize - 1],
    with [bufsize - 1] as [size_t] computes it.  All of them are in
    the buffer exactly when [in_buffer bufsize] holds.  For
    [bufsize = 0] the offset is [2^w - 1] and the copy has [2^w - 1]
    bytes: more than the buffer, and than any object, can hold. *)
Definition in_buffer (bufsize : Z) : bool :=
  size_sub bufsize 1 <? bufsize.

Definition q_remove_head (w : world) (sp : option buffer) (bufsize : Z)
  : option (world * option buffer * bool) :=
  match qref w with
  | None => Some (w, sp, false)
  | Some q =>
      match head q with
      | None => Some (w, sp, false)
      | Some tmp =>
          match sp with
          | None => Some (w, sp, false)
          | Some buf =>
              e ← mem w !! tmp;
              let q1 := Queue (next e) (tail q) (to_int (size q - 1)) in
              let q2 := if size q1 =? 0 then Queue (head q1) None (size q1) else q1 in
              if negb (in_buffer bufsize) then None
              else
                let buf1 := strncpy buf (value e) (size_sub bufsize 1) in
                let buf2 := poke buf1 (size_sub bufsize 1) NUL in
                h1 ← free (mem w) tmp;
                Some (World h1 (Some q2), Some buf2, true)
          end
      end
  end.

Definition q_size (w : world) : Z :=
  match qref w with
  | Some q => size q
  | None => 0
  end.

(** ** q_reverse *)

(** The loop of [q_reverse]: [l] is the part already turned round, [r]
    the element looked at. *)
Fixpoint reverse_loop (fuel : nat) (h : heap) (l r : ptr) : option (heap * ptr) :=
  match r with
  | None => Some (h, l)
  | Some a =>
      match fuel with
      | O => None
      | S fuel' =>
          e ← h !! a;
          h1 ← set_next h a l;
          reverse_loop fuel' h1 (Some a) (next e)
      end
  end.

Definition q_reverse (fuel : nat) (w : world) : option world :=
  match qref w with
  | None => Some w
  | Some q =>
      '(h1, l) ← reverse_loop fuel (mem w) None (head q);
      Some (World h1 (Some (Queue l (head q) (size q))))
  end.

(** ** quick_sort *)

(** [swap_str (&a->value, &b->value)] *)
Definition swap_str (h : heap) (a b : addr) : option heap :=
  ea ← h !! a;
  eb ← h !! b;
  h1 ← set_value h a (value eb);
  set_value h1 b (value ea).

(** The partition loop of [quick_sort]; the pivot is the value of
    [last]. *)
Fixpoint partition_loop (fuel : nat) (h : heap) (l r prev : ptr) (last : addr)
  : option (heap * ptr * ptr) :=
  if decide (r = Some last) then Some (h, l, prev)
  else
    match fuel with
    | O => None
    | S fuel' =>
        ra ← r;
        re ← h !! ra;
        laste ← h !! last;
        if strcmp (value re) (value laste) <? 0 then
          la ← l;
          h1 ← swap_str h ra la;
          le ← h1 !! la;
          re1 ← h1 !! ra;
          partition_loop fuel' h1 (next le) (next re1) l last
        else
          partition_loop fuel' h l (next re) prev last
    end.

Fixpoint quick_sort (fuel : nat) (h : heap) (first last : ptr) : option heap :=
  match first, last with
  | Some _, Some la =>
      if decide (first = last) then Some h
      else
        laste ← h !! la;
        if decide (next laste = first) then Some h
        else
          match fuel with
          | O => None
          | S fuel' =>
              '(h1, l, prev) ← partition_loop fuel' h first first None la;
              a ← l;
              h2 ← swap_str h1 a la;
              h3 ← quick_sort fuel' h2 first prev;
              le ← h3 !! a;
              quick_sort fuel' h3 (next le) last
          end
  | _, _ => Some h
  end.

(** ** merge_sort *)

(** The loop that finds the middle: [left] moves one element, [right]
    two. *)
Fixpoint find_half (fuel : nat) (h : heap) (left right : ptr) : option ptr :=
  match right with
  | None => Some left
  | Some r =>
      re ← h !! r;
      match next re with
      | None => Some left
      | Some rn =>
          match fuel with
          | O => None
          | S fuel' =>
              la ← left;
              le ← h !! la;
              rne ← h !! rn;
              find_half fuel' h (next le) (next rne)
          end
      end
  end.

(** What the [list_ele_t **head] of [merge_sort] points at while the
    two halves are merged: the pointer it was called on, or the [next]
    field of an element. *)
Inductive slot : Type :=
  | Root
  | NextOf (a : addr).

(** [*head = x], where [root] is the pointer [merge_sort] was called
    on. *)
Definition store (h : heap) (root : ptr) (d : slot) (x : ptr) : option (heap * ptr) :=
  match d with
  | Root => Some (h, x)
  | NextOf a => h1 ← set_next h a x; Some (h1, root)
  end.

Fixpoint merge_loop (fuel : nat) (h : heap) (root : ptr) (d : slot) (left right : ptr)
  : option (heap * ptr) :=
  match left, right with
  | Some l, Some r =>
      match fuel with
      | O => None
      | S fuel' =>
          le ← h !! l;
          re ← h !! r;
          if strcmp (value le) (value re) <? 0 then
            '(h1, root1) ← store h root d left;
            le1 ← h1 !! l;
            merge_loop fuel' h1 root1 (NextOf l) (next le1) right
          else
            '(h1, root1) ← store h root d right;
            re1 ← h1 !! r;
            merge_loop fuel' h1 root1 (NextOf r) left (next re1)
      end
  | Some _, None => store h root d left
  | None, _ => store h root d right
  end.

(** [merge_sort (&p)]: the result is the new heap and the new contents
    of [p].  (Its [!head] test never holds: it is only called on the
    address of a pointer.) *)
Fixpoint merge_sort (fuel : nat) (h : heap) (p : ptr) : option (heap * ptr) :=
  match p with
  | None => Some (h, p)
  | Some a =>
      e ← h !! a;
      match next e with
      | None => Some (h, p)
      | Some _ =>
          match fuel with
          | O => None
          | S fuel' =>
              left ← find_half fuel' h p (next e);
              la ← left;
              le ← h !! la;
              h1 ← set_next h la None;
              '(h2, p2) ← merge_sort fuel' h1 p;
              '(h3, right3) ← merge_sort fuel' h2 (next le);
              merge_loop fuel' h3 p2 Root p2 right3
          end
      end
  end.

(** ** q_sort *)

(** The loop that moves [q->tail] to the last element. *)
Fixpoint tail_walk (fuel : nat) (h : heap) (t : ptr) : option ptr :=
  match t with
  | None => Some None
  | Some a =>
      e ← h !! a;
      match next e with
      | None => Some t
      | Some _ =>
          match fuel with
          | O => None
          | S fuel' => tail_walk fuel' h (next e)
          end
      end
  end.

(** [q_sort] chooses between the two sorts with [if (1)]; the choice is
    the argument [use_merge] here, and [q_sort] is the function with the
    constant of the code. *)
Definition q_sort_with (use_merge : bool) (fuel : nat) (w : world) : option world :=
  match qref w with
  | None => Some w
  | Some q =>
      '(h1, q1) ← (if use_merge
                   then '(h1, p) ← merge_sort fuel (mem w) (head q);
                        Some (h1, Queue p (tail q) (size q))
                   else h1 ← quick_sort fuel (mem w) (head q) (tail q);
                        Some (h1, q));
      t ← tail_walk fuel h1 (tail q1);
      Some (World h1 (Some (Queue (head q1) t (size q1))))
  end.

Definition q_sort (fuel : nat) (w : world) : option world :=
  q_sort_with true fuel w.

(** ** Calls and runs *)

(** One call of the interface, with what the environment decides for
    it: whether each [malloc] succeeds, the buffer handed in. *)
Inductive call : Type :=
  | InsertHead (ok_node ok_value : bool) (s : list byte)
  | InsertTail (ok_node ok_value : bool) (s : list byte)
  | RemoveHead (sp : option buffer) (bufsize : Z)
  | Reverse
  | Sort.

(** The state after a call and the value the call returned ([None] for
    the functions that return nothing). *)
Definition do_call (fuel : nat) (c : call) (w : world) : option (world * option bool) :=
  match c with
  | InsertHead ok_node ok_value s =>
      '(w1, r) ← q_insert_head ok_node ok_value w s; Some (w1, Some r)
  | InsertTail ok_node ok_value s =>
      '(w1, r) ← q_insert_tail ok_node ok_value w s; Some (w1, Some r)
  | RemoveHead sp bufsize =>
      '(w1, _, r) ← q_remove_head w sp bufsize; Some (w1, Some r)
  | Reverse => w1 ← q_reverse fuel w; Some (w1, None)
  | Sort => w1 ← q_sort fuel w; Some (w1, None)
  end.

(** The states after each call of a sequence, in order. *)
Fixpoint run (fuel : nat) (cs : list call) (w : world) : option (list (world * option bool)) :=
  match cs with
  | [] => Some []
  | c :: cs' =>
      '(w1, r) ← do_call fuel c w;
      t ← run fuel cs' w1;
      Some ((w1, r) :: t)
  end.

(** What a call adds to the number of elements: one for an insertion
    that returned true, minus one for a removal that returned true. *)
Definition delta (c : call) (r : option bool) : Z :=
  match c, r with
  | (InsertHead _ _ _ | InsertTail _ _ _), Some true => 1
  | RemoveHead _ _, Some true => -1
  | _, _ => 0
  end.

Fixpoint deltas (cs : list call) (t : list (world * option bool)) : Z :=
  match cs, t with
  | c :: cs', (_, r) :: t' => delta c r + deltas cs' t'
  | _, _ => 0
  end.

(** The state a run ends in. *)
Definition final (w : world) (t : list (world * option bool)) : world :=
  default w (last (fst <$> t)).

(** ** Reading a queue *)

(** Following [next] links [n] times from [p]. *)
Fixpoint follow (h : heap) (n : nat) (p : ptr) : option ptr :=
  match n with
  | O => Some p
  | S n' => a ← p; e ← h !! a; follow h n' (next e)
  end.

(** The list segment that starts at [p], runs through the elements [l]
    in this order, and whose last [next] is [e]. *)
Fixpoint lseg (h : heap) (p : ptr) (l : list addr) (e : ptr) : Prop :=
  match l with
  | [] => p = e
  | a :: l' => p = Some a ∧ ∃ n, h !! a = Some n ∧ lseg h (next n) l' e
  end.

(** The pointer to the first element of [l], or [e] when there is
    none. *)
Definition hd_ptr (l : list addr) (e : ptr) : ptr :=
  match l with
  | [] => e
  | a :: _ => Some a
  end.

(** The buffer and the string of the element at [a]. *)
Definition val (h : heap) (a : addr) : list byte :=
  match h !! a with
  | Some e => value e
  | None => []
  end.

Definition payload (h : heap) (a : addr) : list byte := c_str (val h a).

(** [rep w l]: the queue of [w] consists of the elements [l], from head
    to tail. *)
Definition rep (w : world) (l : list addr) : Prop :=
  match qref w with
  | None => l = []
  | Some q =>
      lseg (mem w) (head q) l None ∧ tail q = last l ∧
      size q = Z.of_nat (length l) ∧ Z.of_nat (length l) <= INT_MAX
  end.

(** [contents w vs]: reading the queue of [w] from head to tail gives
    the strings [vs]. *)
Definition contents (w : world) (vs : list (list byte)) : Prop :=
  ∃ l, rep w l ∧ vs = map (payload (mem w)) l.

(** The invariants of the spec, on a queue record [q] in a heap [h].
    [I2_as_stated] is I2 word for word; [I2] counts the links between
    the head and the tail of a queue that is not empty. *)
Definition I1 (q : queue_t) : Prop :=
  (size q = 0 ↔ head q = None) ∧ (head q = None ↔ tail q = None).

Definition ends_chain (h : heap) (t : ptr) : Prop :=
  ∀ a, t = Some a → ∃ e, h !! a = Some e ∧ next e = None.

Definition I2_as_stated (h : heap) (q : queue_t) : Prop :=
  follow h (Z.to_nat (size q)) (head q) = Some (tail q) ∧ ends_chain h (tail q).

Definition I2 (h : heap) (q : queue_t) : Prop :=
  (head q ≠ None → follow h (Z.to_nat (size q - 1)) (head q) = Some (tail q)) ∧
  ends_chain h (tail q).

(** No cycle: [size] links from the head lead out of the list. *)
Definition I3 (h : heap) (q : queue_t) : Prop :=
  follow h (Z.to_nat (size q)) (head q) = Some None.

Definition invariants (w : world) : Prop :=
  ∀ q, qref w = Some q → I1 q ∧ I2 (mem w) q ∧ I3 (mem w) q.

(** Reading the strings from [p] on, and those of a queue from head to
    tail. *)
Fixpoint read_from (fuel : nat) (h : heap) (p : ptr) : option (list (list byte)) :=
  match p with
  | None => Some []
  | Some a =>
      match fuel with
      | O => None
      | S fuel' =>
          e ← h !! a;
          vs ← read_from fuel' h (next e);
          Some (c_str (value e) :: vs)
      end
  end.

Definition q_read (fuel : nat) (w : world) : option (list (list byte)) :=
  q ← qref w; read_from fuel (mem w) (head q).

(** The order of the sort: [strcmp] not positive. *)
Definition str_le (a b : list byte) : Prop := strcmp a b <= 0.

(** A string that [int len = strlen (s) + 1] can hold. *)
Definition fits (s : list byte) : Prop := strlen s + 1 <= INT_MAX.

(** The calls the theorems on runs are about: a string that fits, a
    buffer of at least one byte. *)
Definition call_fits (c : call) : Prop :=
  match c with
  | InsertHead _ _ s | InsertTail _ _ s => fits s
  | RemoveHead _ bufsize => 1 <= bufsize
  | _ => True
  end.

(** ** What the proofs speak of *)

(** The heap after a successful [q_insert_tail]. *)
Definition linked_at_tail (h : heap) (t : ptr) (newt : addr) (v : list byte) : heap :=
  match t with
  | None => <[newt := ListEle v None]> h
  | Some a => <[a := ListEle (val h a) (Some newt)]> (<[newt := ListEle v None]> h)
  end.

(** The buffer after a successful [q_remove_head] of an element with
    the value [v]. *)
Definition filled (buf : buffer) (v : list byte) (bufsize : Z) : buffer :=
  poke (strncpy buf v (size_sub bufsize 1)) (size_sub bufsize 1) NUL.

(** The same elements are live and each has the value it had. *)
Definition same_values (h h' : heap) : Prop :=
  ∀ a, value <$> h' !! a = value <$> h !! a.

(** The same elements are live and each has the [next] it had. *)
Definition same_links (h h' : heap) : Prop :=
  ∀ a, next <$> h' !! a = next <$> h !! a.

(** The order of the elements at two addresses, by the values [v]
    gives them. *)
Definition le_by (v : addr → list byte) (a b : addr) : Prop := str_le (v a) (v b).

(** While two lists are merged: the elements [done] are linked from
    [root] on, and [d] is the place the next element goes to. *)
Definition merging (h : heap) (root : ptr) (d : slot) (done : list addr) : Prop :=
  match d with
  | Root => done = []
  | NextOf z =>
      ∃ done', done = done' ++ [z] ∧ lseg h root done' (Some z) ∧ is_Some (h !! z)
  end.

(** [below pv x]: [x] goes before the pivot [pv]. *)
Definition below (pv x : list byte) : Prop := strcmp x pv < 0.

(** What [quick_sort] does to the range [seg] of a list, as a
    statement about a heap before and after. *)
Definition sorts_range (h h' : heap) (seg : list addr) : Prop :=
  same_links h h' ∧
  (∀ c, c ∉ seg → h' !! c = h !! c) ∧
  map (val h') seg ≡ₚ map (val h) seg ∧
  StronglySorted str_le (map (val h') seg).

(** [quick_sort] with [fuel] sorts every range from a first to a last
    element that has at most [fuel] elements. *)
Definition quick_sort_ok (fuel : nat) : Prop :=
  ∀ h f s la post,
    lseg h (Some f) ((s ++ [la]) ++ post) None →
    (length (s ++ [la]) ≤ fuel)%nat →
    ∃ h', quick_sort fuel h (Some f) (Some la) = Some h' ∧
          sorts_range h h' (s ++ [la]).

(** Membership in a list built from [++] and [::]. *)
Ltac in_list :=
  repeat match goal with
    | H : context [_ ∈ _ ++ _] |- _ => rewrite elem_of_app in H
    | H : context [_ ∈ _ :: _] |- _ => rewrite elem_of_cons in H
    | |- context [_ ∈ _ ++ _] => rewrite elem_of_app
    | |- context [_ ∈ _ :: _] => rewrite elem_of_cons
    | |- context [_ ∈ []] => rewrite elem_of_nil
    end;
  intuition (subst; auto).

(** ** Queues and calls to try the functions on *)

(** The queue after inserting [banana], [apple] and [cherry] at the
    tail of a new queue. *)
Definition fruit : world :=
  World (<[1%positive := ListEle (str "banana" ++ [NUL]) (Some 2%positive)]>
        (<[2%positive := ListEle (str "apple" ++ [NUL]) (Some 3%positive)]>
        (<[3%positive := ListEle (str "cherry" ++ [NUL]) None]> ∅)))
        (Some (Queue (Some 1%positive) (Some 3%positive) 3)).

(** The queue that holds [hello] alone. *)
Definition greeting : world :=
  World (<[1%positive := ListEle (str "hello" ++ [NUL]) None]> ∅)
        (Some (Queue (Some 1%positive) (Some 1%positive) 1)).

Definition demo_calls : list call :=
  [ InsertTail true true (str "banana");
    InsertHead true true (str "apple");
    InsertTail true false (str "lost");
    InsertTail true true (str "cherry");
    Sort;
    Reverse;
    RemoveHead (Some (λ _, NUL)) 4;
    RemoveHead None 4 ].

(** [outside w l F]: apart from the elements [l], the list elements
    in the heap of [w] are those of [F]. *)
Definition outside (w : world) (l : list addr) (F : heap) : Prop :=
  (∀ a, a ∈ l → F !! a = None) ∧ (∀ a, a ∉ l → mem w !! a = F !! a).

(** ** The queue as a list of strings *)

(** What a user expects of a queue that is not [NULL] and holds the
    strings [vs]: the strings it holds after a call, and what the call
    returns, for the calls of [call_fits] (a removal with a buffer of
    no bytes has no result and is not part of the model).  The sort of
    the model is stdpp's merge sort on lists. *)
#[local] Instance str_le_dec : RelDecision str_le :=
  λ a b, decide (strcmp a b <= 0).

Definition sorted_strings (vs : list (list byte)) : list (list byte) :=
  stdpp.sorting.merge_sort str_le vs.

Definition list_call (c : call) (vs : list (list byte)) : list (list byte) :=
  match c with
  | InsertHead true true s => c_str s :: vs
  | InsertTail true true s => vs ++ [c_str s]
  | RemoveHead (Some _) _ => drop 1 vs
  | Reverse => reverse vs
  | Sort => sorted_strings vs
  | _ => vs
  end.

Definition list_result (c : call) (vs : list (list byte)) : option bool :=
  match c with
  | InsertHead ok_node ok_value _ | InsertTail ok_node ok_value _ =>
      Some (ok_node && ok_value)
  | RemoveHead (Some _) _ => Some (match vs with [] => false | _ => true end)
  | RemoveHead None _ => Some false
  | Reverse | Sort => None
  end.

Definition list_run (cs : list call) (vs : list (list byte)) : list (list byte) :=
  foldl (λ vs c, list_call c vs) vs cs.

Fixpoint list_results (cs : list call) (vs : list (list byte)) : list (option bool) :=
  match cs with
  | [] => []
  | c :: cs' => list_result c vs :: list_results cs' (list_call c vs)
  end.

(** Two elements with the same string. *)
Definition twins : world :=
  World (<[1%positive := ListEle (str "same" ++ [NUL]) (Some 2%positive)]>
        (<[2%positive := ListEle (str "same" ++ [NUL]) None]> ∅))
        (Some (Queue (Some 1%positive) (Some 2%positive) 2)).

(** What a call returns on a [NULL] queue. *)
Definition null_result (c : call) : option bool :=
  match c with
  | Reverse | Sort => None
  | _ => Some false
  end.

(** ** Machine arithmetic *)

Lemma size_mod_big : 2 ^ 32 <= size_mod.
Proof. unfold size_mod. apply Z.pow_le_mono_r; lia. Qed.

Lemma to_int_small z : - 2 ^ 31 <= z <= INT_MAX → to_int z = z.
Proof.
  unfold to_int, INT_MAX. intros Hz.
  rewrite Z.mod_small by lia. lia.
Qed.

Lemma to_size_small z : 0 <= z <= INT_MAX → to_size z = z.
Proof.
  pose proof size_mod_big as Hm. unfold to_size, INT_MAX. intros Hz.
  apply Z.mod_small. lia.
Qed.

Lemma size_add_small a b : 0 <= a + b <= INT_MAX → size_add a b = a + b.
Proof.
  pose proof size_mod_big as Hm. unfold size_add, INT_MAX. intros Hz.
  apply Z.mod_small. lia.
Qed.

Lemma size_sub_range a b : 0 <= size_sub a b < size_mod.
Proof. pose proof size_mod_big. unfold size_sub. apply Z.mod_pos_bound. lia. Qed.

Lemma size_sub_pos b : 1 <= b < size_mod → size_sub b 1 = b - 1.
Proof. unfold size_sub. intros Hb. apply Z.mod_small. lia. Qed.

Lemma size_sub_zero : size_sub 0 1 = size_mod - 1.
Proof.
  pose proof size_mod_big as Hm. unfold size_sub.
  replace (0 - 1) with (-1 * size_mod + (size_mod - 1)) by lia.
  rewrite Z.add_comm, Z.mod_add by lia.
  apply Z.mod_small. lia.
Qed.

Lemma strlen_nonneg s : 0 <= strlen s.
Proof. unfold strlen. lia. Qed.

Lemma len_fits s : fits s → to_int (size_add (strlen s) 1) = strlen s + 1.
Proof.
  unfold fits. intros Hs. pose proof (strlen_nonneg s).
  rewrite size_add_small by lia. apply to_int_small. unfold INT_MAX in *. lia.
Qed.

Lemma in_block_fits s : fits s → in_block (strlen s + 1) = true.
Proof.
  unfold fits, in_block. intros Hs. pose proof (strlen_nonneg s).
  rewrite to_size_small by lia.
  apply andb_true_intro. split; [apply Z.leb_le | apply Z.ltb_lt]; lia.
Qed.

(** ** Strings *)

Lemma byte_eqb_eq x y : Byte.eqb x y = true ↔ x = y.
Proof. split; [apply Byte.byte_dec_bl | apply Byte.byte_dec_lb]. Qed.

Lemma byte_eqb_neq x y : Byte.eqb x y = false ↔ x ≠ y.
Proof.
  rewrite <- byte_eqb_eq. destruct (Byte.eqb x y); split; congruence.
Qed.

Lemma uchar_nonneg b : 0 <= uchar b.
Proof. unfold uchar. lia. Qed.

Lemma uchar_inj x y : uchar x = uchar y → x = y.
Proof.
  unfold uchar. intros H. apply N2Z.inj in H.
  pose proof (Byte.of_to_N x) as Hx. rewrite H, Byte.of_to_N in Hx. congruence.
Qed.

Lemma uchar_NUL b : uchar b <= 0 → b = NUL.
Proof.
  intros H. apply uchar_inj. pose proof (uchar_nonneg b).
  change (uchar NUL) with 0. lia.
Qed.

Lemma c_str_idem s : c_str (c_str s) = c_str s.
Proof.
  induction s as [|b s IH]; simpl; [done|].
  destruct (Byte.eqb b NUL) eqn:E; simpl; [done|]. rewrite E. by f_equal.
Qed.

Lemma c_str_take s : take (length (c_str s)) s = c_str s.
Proof.
  induction s as [|b s IH]; simpl; [done|].
  destruct (Byte.eqb b NUL); simpl; [done|]. by f_equal.
Qed.

Lemma c_str_app_NUL s t : c_str (c_str s ++ NUL :: t) = c_str s.
Proof.
  induction s as [|b s IH]; simpl; [done|].
  destruct (Byte.eqb b NUL) eqn:E; simpl; [done|]. rewrite E. by f_equal.
Qed.

Lemma copy_of_fits s : fits s → copy_of s (strlen s + 1) = c_str s ++ [NUL].
Proof.
  intros Hs. unfold copy_of. pose proof (strlen_nonneg s). unfold fits in Hs.
  rewrite to_size_small by lia.
  replace (Z.to_nat (strlen s + 1 - 1)) with (length (c_str s)) by (unfold strlen; lia).
  by rewrite c_str_take.
Qed.

Lemma strcmp_c_str a b : strcmp (c_str a) (c_str b) = strcmp a b.
Proof.
  revert b. induction a as [|x a IH]; intros [|y b]; simpl; try done.
  - destruct (Byte.eqb y NUL) eqn:E; simpl; [|done].
    apply byte_eqb_eq in E. by subst.
  - destruct (Byte.eqb x NUL) eqn:E; simpl; [|done].
    apply byte_eqb_eq in E. by subst.
  - destruct (Byte.eqb x NUL) eqn:Ex, (Byte.eqb y NUL) eqn:Ey; simpl.
    + apply byte_eqb_eq in Ex, Ey. subst. done.
    + apply byte_eqb_eq in Ex. subst. apply byte_eqb_neq in Ey.
      destruct (Byte.eqb NUL y) eqn:E; [apply byte_eqb_eq in E; congruence | done].
    + apply byte_eqb_eq in Ey. subst. rewrite Ex. change (uchar NUL) with 0. lia.
    + rewrite Ex. destruct (Byte.eqb x y); [apply IH | done].
Qed.

Lemma strcmp_swap a b : strcmp b a = - strcmp a b.
Proof.
  revert b. induction a as [|x a IH]; intros [|y b]; simpl; try lia.
  destruct (Byte.eqb x y) eqn:E.
  - apply byte_eqb_eq in E. subst y.
    rewrite (proj2 (byte_eqb_eq x x) eq_refl).
    destruct (Byte.eqb x NUL); [lia | apply IH].
  - apply byte_eqb_neq in E.
    destruct (Byte.eqb y x) eqn:E'; [apply byte_eqb_eq in E'; congruence | lia].
Qed.

Lemma strcmp_eq a b : strcmp a b = 0 ↔ c_str a = c_str b.
Proof.
  revert b. induction a as [|x a IH]; intros [|y b]; simpl.
  - done.
  - destruct (Byte.eqb y NUL) eqn:E.
    + apply byte_eqb_eq in E. subst. done.
    + apply byte_eqb_neq in E. split; [|done].
      intros H. destruct E. apply uchar_NUL. lia.
  - destruct (Byte.eqb x NUL) eqn:E.
    + apply byte_eqb_eq in E. subst. done.
    + apply byte_eqb_neq in E. split; [|done].
      intros H. destruct E. apply uchar_NUL. lia.
  - destruct (Byte.eqb x y) eqn:E.
    + apply byte_eqb_eq in E. subst y.
      destruct (Byte.eqb x NUL); [done|].
      rewrite IH. split; [congruence | by intros [= ->]].
    + apply byte_eqb_neq in E.
      assert (uchar x - uchar y ≠ 0) as Hne
        by (intros H; apply E, uchar_inj; lia).
      split; [done|].
      destruct (Byte.eqb x NUL) eqn:Ex, (Byte.eqb y NUL) eqn:Ey;
        try apply byte_eqb_eq in Ex; try apply byte_eqb_eq in Ey;
        subst; try done; congruence.
  Qed.

Lemma str_le_trans a b c : str_le a b → str_le b c → str_le a c.
Proof.
  unfold str_le. revert b c.
  induction a as [|x a IH]; intros b c.
  { destruct c as [|z c]; simpl; [lia | pose proof (uchar_nonneg z); lia]. }
  destruct b as [|y b]; simpl.
  { intros Hx _. apply uchar_NUL in Hx. subst x.
    destruct c as [|z c]; simpl; [done|].
    destruct (Byte.eqb NUL z); simpl; [done|].
    pose proof (uchar_nonneg z). change (uchar NUL) with 0. lia. }
  destruct (Byte.eqb x y) eqn:Exy.
  - apply byte_eqb_eq in Exy. subst y.
    destruct (Byte.eqb x NUL) eqn:Ex.
    + intros _. apply byte_eqb_eq in Ex. subst x.
      destruct c as [|z c]; simpl; [done|].
      destruct (Byte.eqb NUL z); simpl; done.
    + intros Hab. destruct c as [|z c]; simpl; [done|].
      destruct (Byte.eqb x z); [|done].
      by apply IH.
  - apply byte_eqb_neq in Exy. intros Hxy.
    assert (uchar x < uchar y) as Hlt.
    { destruct (Z.eq_dec (uchar x) (uchar y)) as [E|E];
        [by apply uchar_inj in E | lia]. }
    destruct c as [|z c]; simpl.
    { intros Hy. pose proof (uchar_nonneg x). lia. }
    destruct (Byte.eqb y z) eqn:Eyz.
    + apply byte_eqb_eq in Eyz. subst z. intros _.
      destruct (Byte.eqb x y) eqn:E; [apply byte_eqb_eq in E; done | lia].
    + intros Hyz.
      destruct (Byte.eqb x z) eqn:E; [|lia].
      apply byte_eqb_eq in E. subst z. lia.
Qed.

Lemma str_le_of_lt a b : strcmp a b < 0 → str_le a b.
Proof. unfold str_le. lia. Qed.

Lemma str_le_of_not_lt a b : ¬ strcmp a b < 0 → str_le b a.
Proof. unfold str_le. rewrite (strcmp_swap a b). lia. Qed.

Lemma str_le_antisym a b : str_le a b → str_le b a → c_str a = c_str b.
Proof.
  unfold str_le. rewrite (strcmp_swap a b). intros H1 H2.
  apply strcmp_eq. lia.
Qed.

(** ** List segments *)

Lemma lseg_hd h p l e : lseg h p l e → p = hd_ptr l e.
Proof. destruct l; simpl; [done | by intros [-> _]]. Qed.

Lemma lseg_app h p l1 l2 e :
  lseg h p (l1 ++ l2) e ↔ ∃ m, lseg h p l1 m ∧ lseg h m l2 e.
Proof.
  revert p. induction l1 as [|a l1 IH]; intros p; simpl.
  - split; [intros H; by exists p | by intros (m & -> & H)].
  - split.
    + intros (-> & n & Hn & H). apply IH in H as (m & H1 & H2).
      exists m. eauto.
    + intros (m & (-> & n & Hn & H1) & H2). split; [done|].
      exists n. split; [done|]. apply IH. eauto.
Qed.

Lemma lseg_snoc h p l a e :
  lseg h p (l ++ [a]) e ↔ lseg h p l (Some a) ∧ ∃ n, h !! a = Some n ∧ next n = e.
Proof.
  rewrite lseg_app. simpl. split.
  - intros (m & H1 & -> & n & Hn & He). eauto.
  - intros (H1 & n & Hn & He). exists (Some a). eauto.
Qed.

Lemma lseg_frame h h' p l e :
  (∀ a, a ∈ l → next <$> h' !! a = next <$> h !! a) →
  lseg h p l e → lseg h' p l e.
Proof.
  revert p. induction l as [|a l IH]; intros p Hsame; simpl; [done|].
  intros (-> & n & Hn & H). split; [done|].
  pose proof (Hsame a ltac:(left)) as Ha. rewrite Hn in Ha. simpl in Ha.
  destruct (h' !! a) as [n'|] eqn:Hn'; simpl in Ha; [|done].
  injection Ha as Ha. exists n'. split; [done|]. rewrite Ha.
  apply IH; [|done]. intros b Hb. apply Hsame. by right.
Qed.

Lemma lseg_live h p l e a : lseg h p l e → a ∈ l → is_Some (h !! a).
Proof.
  revert p. induction l as [|b l IH]; intros p; simpl.
  - intros _ H. by apply elem_of_nil in H.
  - intros (-> & n & Hn & H) [->|Ha]%elem_of_cons; eauto.
Qed.

Lemma lseg_next h p l1 a l2 e :
  lseg h p (l1 ++ a :: l2) e → ∃ n, h !! a = Some n ∧ next n = hd_ptr l2 e.
Proof.
  rewrite lseg_app. simpl. intros (m & _ & -> & n & Hn & H).
  exists n. split; [done|]. by apply lseg_hd in H.
Qed.

Lemma lseg_inj h p l l' : lseg h p l None → lseg h p l' None → l = l'.
Proof.
  revert p l'. induction l as [|a l IH]; intros p [|a' l']; simpl; try congruence.
  - intros -> [? _]. done.
  - intros [-> _] ?. done.
  - intros (-> & n & Hn & H) ([= <-] & n' & Hn' & H').
    rewrite Hn in Hn'. injection Hn' as <-. f_equal. eauto.
Qed.

Lemma lseg_NoDup h p l : lseg h p l None → NoDup l.
Proof.
  revert p. induction l as [|a l IH]; intros p; simpl; [constructor|].
  intros (-> & n & Hn & H). constructor; [|eauto].
  intros Ha. apply list_elem_of_split in Ha as (l1 & l2 & ->).
  pose proof H as H'. apply lseg_app in H' as (m & _ & H2).
  pose proof H2 as [-> (n' & Hn' & H3)].
  rewrite Hn in Hn'. injection Hn' as <-.
  pose proof (lseg_inj _ _ _ _ H H3) as Heq.
  apply (f_equal length) in Heq. rewrite length_app in Heq. simpl in Heq. lia.
Qed.

Lemma follow_lseg h p l e : lseg h p l e → follow h (length l) p = Some e.
Proof.
  revert p. induction l as [|a l IH]; intros p; simpl; [by intros ->|].
  intros (-> & n & Hn & H). simpl. rewrite Hn. simpl. eauto.
Qed.

(** ** Updates of the heap *)

Lemma set_next_Some h a p e :
  h !! a = Some e → set_next h a p = Some (<[a := ListEle (value e) p]> h).
Proof. unfold set_next. by intros ->. Qed.

Lemma set_value_Some h a v e :
  h !! a = Some e → set_value h a v = Some (<[a := ListEle v (next e)]> h).
Proof. unfold set_value. by intros ->. Qed.

Lemma free_Some h a e : h !! a = Some e → free h a = Some (delete a h).
Proof. unfold free. by intros ->. Qed.

Lemma val_insert h a e b :
  val (<[a := e]> h) b = if decide (a = b) then value e else val h b.
Proof. unfold val. rewrite lookup_insert. by case_decide. Qed.

Lemma fresh_not_live (h : heap) : h !! fresh (dom h) = None.
Proof. apply not_elem_of_dom, is_fresh. Qed.

Lemma lseg_insert_fresh h p l e a n :
  a ∉ l → lseg h p l e → lseg (<[a := n]> h) p l e.
Proof.
  intros Ha. apply lseg_frame. intros b Hb.
  rewrite lookup_insert_ne; [done|]. intros ->. done.
Qed.

Lemma lseg_not_live h p l e a : lseg h p l e → h !! a = None → a ∉ l.
Proof.
  intros H Ha Hin. apply (lseg_live _ _ _ _ _ H) in Hin as [n Hn]. congruence.
Qed.

(** ** The representation and the invariants of the spec *)

Lemma rep_invariants w l : rep w l → invariants w.
Proof.
  unfold rep, invariants. intros H q Hq. rewrite Hq in H.
  destruct H as (Hl & Ht & Hs & _).
  pose proof (lseg_hd _ _ _ _ Hl) as Hh.
  assert (ends_chain (mem w) (tail q)) as He.
  { intros a Ha. rewrite Ht in Ha. apply last_Some in Ha as [l' ->].
    by apply lseg_snoc in Hl as (_ & n & Hn & Hnone); eauto. }
  repeat split.
  - intros H0. rewrite Hh. destruct l; [done | simpl in *; lia].
  - intros H0. rewrite Hh in H0. destruct l; [simpl in *; lia | done].
  - intros H0. rewrite Hh in H0. destruct l; [by rewrite Ht | done].
  - intros H0. rewrite Ht in H0. apply last_None in H0. by rewrite Hh, H0.
  - intros Hne. rewrite Hh in Hne.
    destruct (last l) as [t|] eqn:Hlast;
      [|apply last_None in Hlast; by subst].
    rewrite Ht. apply last_Some in Hlast as [l' ->].
    apply lseg_snoc in Hl as [Hl' _]. apply follow_lseg in Hl'.
    rewrite length_app in Hs. simpl in Hs.
    by replace (Z.to_nat (size q - 1)) with (length l') by lia.
  - done.
  - unfold I3. rewrite Hs, Nat2Z.id. by apply follow_lseg.
Qed.

Lemma rep_size w l : rep w l → q_size w = Z.of_nat (length l).
Proof.
  unfold rep, q_size. destruct (qref w); [by intros (_ & _ & ? & _) | by intros ->].
Qed.

Lemma rep_new ok : rep (q_new ok) [].
Proof. destruct ok; simpl; unfold rep; simpl; [|done]. repeat split; done. Qed.

Lemma rep_inj w l l' : rep w l → rep w l' → l = l'.
Proof.
  unfold rep. destruct (qref w); [|congruence].
  intros (H & _) (H' & _). eapply lseg_inj; eauto.
Qed.

Lemma read_from_lseg fuel h p l :
  lseg h p l None → (length l ≤ fuel)%nat →
  read_from fuel h p = Some (map (payload h) l).
Proof.
  revert fuel p. induction l as [|a l IH]; intros fuel p Hl Hfuel.
  { simpl in Hl. subst p. by destruct fuel. }
  destruct Hl as (-> & e & He & Hl).
  destruct fuel as [|fuel]; [simpl in Hfuel; lia|].
  simpl. rewrite He. simpl. rewrite (IH fuel (next e)); [|done|simpl in Hfuel; lia].
  simpl. unfold payload, val. by rewrite He.
Qed.

(** [contents] is what [q_read] reads. *)
Lemma contents_read fuel w vs :
  contents w vs → is_Some (qref w) → (length vs ≤ fuel)%nat →
  q_read fuel w = Some vs.
Proof.
  intros (l & Hrep & ->) [q Hq] Hfuel. rewrite length_map in Hfuel.
  unfold rep in Hrep. unfold q_read. rewrite Hq in Hrep |- *. simpl.
  destruct Hrep as (Hl & _). by apply read_from_lseg.
Qed.

(** ** q_insert_head and q_insert_tail *)

Lemma q_insert_head_null ok_node ok_value w s :
  qref w = None → q_insert_head ok_node ok_value w s = Some (w, false).
Proof. unfold q_insert_head. by intros ->. Qed.

Lemma q_insert_head_no_node ok_value w s :
  q_insert_head false ok_value w s = Some (w, false).
Proof. unfold q_insert_head. by destruct (qref w). Qed.

Lemma q_insert_head_no_value w s :
  q_insert_head true false w s = Some (w, false).
Proof.
  unfold q_insert_head. destruct w as [h [q|]]; simpl; [|done].
  unfold free. rewrite lookup_insert_eq. simpl.
  by rewrite delete_insert_id by apply fresh_not_live.
Qed.

Lemma q_insert_head_success w q s :
  qref w = Some q → fits s → 0 <= size q < INT_MAX →
  let newh := fresh (dom (mem w)) in
  q_insert_head true true w s =
    Some (World (<[newh := ListEle (c_str s ++ [NUL]) (head q)]> (mem w))
                (Some (Queue (Some newh)
                             (match tail q with None => Some newh | Some t => Some t end)
                             (size q + 1))),
          true).
Proof.
  intros Hq Hs Hsz newh. unfold q_insert_head. rewrite Hq. simpl.
  rewrite len_fits, in_block_fits, copy_of_fits by done. simpl.
  unfold set_value, set_next. rewrite lookup_insert_eq. simpl.
  rewrite lookup_insert_eq. simpl. rewrite !insert_insert_eq.
  rewrite to_int_small by (unfold INT_MAX in *; lia).
  by destruct (tail q).
Qed.

Lemma q_insert_tail_null ok_node ok_value w s :
  qref w = None → q_insert_tail ok_node ok_value w s = Some (w, false).
Proof. unfold q_insert_tail. by intros ->. Qed.

Lemma q_insert_tail_no_node ok_value w s :
  q_insert_tail false ok_value w s = Some (w, false).
Proof. unfold q_insert_tail. by destruct (qref w). Qed.

Lemma q_insert_tail_no_value w s :
  q_insert_tail true false w s = Some (w, false).
Proof.
  unfold q_insert_tail. destruct w as [h [q|]]; simpl; [|done].
  unfold set_next, free. rewrite lookup_insert_eq. simpl.
  rewrite lookup_insert_eq. simpl. rewrite insert_insert_eq.
  by rewrite delete_insert_id by apply fresh_not_live.
Qed.

Lemma q_insert_tail_success w q s :
  qref w = Some q → fits s → 0 <= size q < INT_MAX →
  (∀ t, tail q = Some t → is_Some (mem w !! t)) →
  let newt := fresh (dom (mem w)) in
  q_insert_tail true true w s =
    Some (World (linked_at_tail (mem w) (tail q) newt (c_str s ++ [NUL]))
                (Some (Queue (match tail q with None => Some newt | Some _ => head q end)
                             (Some newt) (size q + 1))),
          true).
Proof.
  intros Hq Hs Hsz Ht newt. unfold q_insert_tail. rewrite Hq. simpl.
  rewrite len_fits, in_block_fits, copy_of_fits by done. simpl.
  erewrite set_next_Some by apply lookup_insert_eq. simpl.
  erewrite set_value_Some by apply lookup_insert_eq. simpl.
  rewrite !insert_insert_eq.
  assert (to_int (size q + 1) = size q + 1) as Hsz1
    by (apply to_int_small; unfold INT_MAX in *; lia).
  destruct (tail q) as [t|] eqn:Etail; simpl; [|by rewrite Hsz1].
  destruct (Ht t eq_refl) as [e He].
  assert (t ≠ newt) as Hne.
  { intros ->. unfold newt in He. by rewrite fresh_not_live in He. }
  erewrite set_next_Some by (rewrite lookup_insert_ne; done). simpl.
  rewrite Hsz1. unfold val. by rewrite He.
Qed.

(** [int len]: a string of [2^32] characters gets a [len] of 1, and
    the element stores the empty string. *)
Lemma len_wraps s : strlen s = 2 ^ 32 → to_int (size_add (strlen s) 1) = 1.
Proof.
  intros ->. unfold size_add, size_mod, to_int.
  destruct (Z.eq_dec size_bits 32) as [->|Hne]; [reflexivity|].
  assert (2 ^ 33 <= 2 ^ size_bits) by (apply Z.pow_le_mono_r; lia).
  rewrite (Z.mod_small (2 ^ 32 + 1)) by lia. reflexivity.
Qed.

Lemma q_insert_tail_long w q s :
  qref w = Some q → tail q = None → strlen s = 2 ^ 32 → 0 <= size q < INT_MAX →
  q_insert_tail true true w s =
    Some (World (<[fresh (dom (mem w)) := ListEle [NUL] None]> (mem w))
                (Some (Queue (Some (fresh (dom (mem w)))) (Some (fresh (dom (mem w))))
                             (size q + 1))),
          true).
Proof.
  intros Hq Ht Hs Hsz. unfold q_insert_tail. rewrite Hq. simpl.
  rewrite (len_wraps s Hs).
  assert (in_block 1 = true) as ->.
  { unfold in_block, to_size. pose proof size_mod_big.
    rewrite Z.mod_small by lia. reflexivity. }
  assert (copy_of s 1 = [NUL]) as ->.
  { unfold copy_of, to_size. pose proof size_mod_big.
    rewrite Z.mod_small by lia. reflexivity. }
  erewrite set_next_Some by apply lookup_insert_eq. simpl.
  erewrite set_value_Some by apply lookup_insert_eq. simpl.
  rewrite !insert_insert_eq, Ht. simpl.
  by rewrite to_int_small by (unfold INT_MAX in *; lia).
Qed.

Lemma c_str_repeat b n : b ≠ NUL → c_str (repeat b n) = repeat b n.
Proof.
  intros Hb. induction n as [|n IH]; simpl; [done|].
  rewrite (proj2 (byte_eqb_neq b NUL) Hb). by f_equal.
Qed.

Lemma q_insert_tail_long_string n :
  Z.of_nat n = 2 ^ 32 →
  ∃ w, q_insert_tail true true (q_new true) (repeat "a"%byte n) = Some (w, true) ∧
       q_read 1 w = Some [[]] ∧
       strlen (repeat "a"%byte n) = 2 ^ 32.
Proof.
  intros Hn.
  assert (strlen (repeat "a"%byte n) = 2 ^ 32) as Hs.
  { unfold strlen. rewrite c_str_repeat by done. by rewrite repeat_length. }
  eexists. split_and!; [|
    |exact Hs].
  - apply (q_insert_tail_long (q_new true) (Queue None None 0));
      [reflexivity|reflexivity|exact Hs|unfold INT_MAX; simpl; lia].
  - unfold q_read. simpl. rewrite lookup_insert_eq. reflexivity.
Qed.

Lemma rep_insert_head w q l s :
  rep w l → qref w = Some q → fits s → Z.of_nat (length l) < INT_MAX →
  ∃ w', q_insert_head true true w s = Some (w', true) ∧
        rep w' (fresh (dom (mem w)) :: l) ∧
        val (mem w') (fresh (dom (mem w))) = c_str s ++ [NUL] ∧
        ∀ a, a ∈ l → mem w' !! a = mem w !! a.
Proof.
  intros Hrep Hq Hs Hlen. unfold rep in Hrep. rewrite Hq in Hrep.
  destruct Hrep as (Hl & Ht & Hsz & _).
  eexists. split; [apply q_insert_head_success; [done..|lia]|].
  pose proof (lseg_not_live _ _ _ _ _ Hl (fresh_not_live (mem w))) as Hfresh.
  split; [|split].
  - unfold rep. simpl. split_and!.
    + done.
    + exists (ListEle (c_str s ++ [NUL]) (head q)).
      rewrite lookup_insert_eq. split; [done|]. simpl.
      by apply lseg_insert_fresh.
    + rewrite Ht. destruct l as [|a l]; [done|].
      rewrite last_cons_cons.
      destruct (last (a :: l)) eqn:E; [done|]. by apply last_None in E.
    + lia.
    + lia.
  - simpl. by rewrite val_insert, decide_True.
  - intros a Ha. simpl. rewrite lookup_insert_ne; [done|]. by intros <-.
Qed.

Lemma rep_insert_tail w q l s :
  rep w l → qref w = Some q → fits s → Z.of_nat (length l) < INT_MAX →
  ∃ w', q_insert_tail true true w s = Some (w', true) ∧
        rep w' (l ++ [fresh (dom (mem w))]) ∧
        val (mem w') (fresh (dom (mem w))) = c_str s ++ [NUL] ∧
        ∀ a, a ∈ l → val (mem w') a = val (mem w) a.
Proof.
  intros Hrep Hq Hs Hlen. unfold rep in Hrep. rewrite Hq in Hrep.
  destruct Hrep as (Hl & Ht & Hsz & _).
  pose proof (lseg_not_live _ _ _ _ _ Hl (fresh_not_live (mem w))) as Hfresh.
  set (newt := fresh (dom (mem w))) in *.
  assert (∀ t, tail q = Some t → is_Some (mem w !! t)) as Hlive.
  { intros t Htl. rewrite Ht in Htl. apply last_Some in Htl as [l' ->].
    eapply lseg_live; [done|]. apply elem_of_app. right. by left. }
  eexists. split; [apply q_insert_tail_success; [done..|lia|done]|].
  fold newt. split; [|split].
  - unfold rep. simpl. rewrite last_snoc, length_app. simpl.
    split_and!; [|done|lia|lia].
    destruct (tail q) as [t|] eqn:Etail; simpl.
    + symmetry in Ht. apply last_Some in Ht as [l' ->].
      apply lseg_snoc in Hl as (Hl' & n & Hn & Hnone).
      assert (t ≠ newt) as Hne
        by (intros ->; apply Hfresh, elem_of_app; right; by left).
      apply lseg_snoc. split.
      * apply lseg_snoc. split.
        -- eapply lseg_frame; [|done]. intros a Ha.
           assert (NoDup (l' ++ [t])) as Hnd.
           { eapply lseg_NoDup, lseg_snoc. split; [done|]. eauto. }
           apply NoDup_app in Hnd as (_ & Hnd & _).
           rewrite !lookup_insert_ne; [done|..].
           ++ intros ->. apply Hfresh, elem_of_app. by left.
           ++ intros ->. apply (Hnd _ Ha). by left.
        -- eexists. rewrite lookup_insert_eq. done.
      * eexists. rewrite lookup_insert_ne by done.
        rewrite lookup_insert_eq. done.
    + symmetry in Ht. apply last_None in Ht. subst l. simpl in *.
      split; [done|]. eexists. rewrite lookup_insert_eq. done.
  - simpl. unfold linked_at_tail. destruct (tail q) as [t|] eqn:Etail.
    + assert (t ≠ newt) as Hne.
      { intros ->. destruct (Hlive _ eq_refl) as [e He].
        unfold newt in He. by rewrite fresh_not_live in He. }
      rewrite val_insert, decide_False by done.
      by rewrite val_insert, decide_True.
    + by rewrite val_insert, decide_True.
  - intros a Ha. simpl. unfold linked_at_tail.
    assert (newt ≠ a) as Hne by (by intros <-).
    destruct (tail q) as [t|].
    + rewrite val_insert. case_decide as E.
      * by subst a.
      * by rewrite val_insert, decide_False.
    + by rewrite val_insert, decide_False.
Qed.

(** ** q_remove_head *)

Lemma q_remove_head_null w sp bufsize :
  qref w = None → q_remove_head w sp bufsize = Some (w, sp, false).
Proof. unfold q_remove_head. by intros ->. Qed.

Lemma q_remove_head_empty w q sp bufsize :
  qref w = Some q → head q = None →
  q_remove_head w sp bufsize = Some (w, sp, false).
Proof. unfold q_remove_head. by intros -> ->. Qed.

Lemma q_remove_head_no_buffer w bufsize :
  q_remove_head w None bufsize = Some (w, None, false).
Proof. unfold q_remove_head. destruct (qref w) as [q|]; [|done]. by destruct (head q). Qed.

Lemma q_remove_head_rep_nil w sp bufsize :
  rep w [] → q_remove_head w sp bufsize = Some (w, sp, false).
Proof.
  unfold rep. destruct (qref w) as [q|] eqn:Hq.
  - intros (Hl & _). simpl in Hl. by apply q_remove_head_empty with q.
  - intros _. by apply q_remove_head_null.
Qed.

Lemma in_buffer_pos bufsize : 1 <= bufsize → in_buffer bufsize = true.
Proof.
  intros Hb. unfold in_buffer, size_sub. apply Z.ltb_lt.
  pose proof size_mod_big.
  pose proof (Z.mod_le (bufsize - 1) size_mod). lia.
Qed.

Lemma in_buffer_nonpos bufsize : bufsize <= 0 → in_buffer bufsize = false.
Proof.
  intros Hb. unfold in_buffer, size_sub. apply Z.ltb_ge.
  pose proof size_mod_big.
  pose proof (Z.mod_pos_bound (bufsize - 1) size_mod). lia.
Qed.

Lemma q_remove_head_success w q a e buf bufsize :
  qref w = Some q → head q = Some a → mem w !! a = Some e → 1 <= bufsize →
  q_remove_head w (Some buf) bufsize =
    Some (World (delete a (mem w))
                (Some (Queue (next e)
                             (if to_int (size q - 1) =? 0 then None else tail q)
                             (to_int (size q - 1)))),
          Some (filled buf (value e) bufsize), true).
Proof.
  intros Hq Hh He Hb. unfold q_remove_head. rewrite Hq, Hh, He. simpl.
  rewrite in_buffer_pos by done. simpl.
  erewrite free_Some by done. simpl.
  by destruct (to_int (size q - 1) =? 0).
Qed.

Lemma q_remove_head_overrun w q a e buf bufsize :
  qref w = Some q → head q = Some a → mem w !! a = Some e → bufsize <= 0 →
  q_remove_head w (Some buf) bufsize = None.
Proof.
  intros Hq Hh He Hb. unfold q_remove_head. rewrite Hq, Hh, He. simpl.
  by rewrite in_buffer_nonpos.
Qed.

Lemma rep_head_live w a l :
  rep w (a :: l) → ∃ q e, qref w = Some q ∧ head q = Some a ∧ mem w !! a = Some e.
Proof.
  unfold rep. destruct (qref w) as [q|]; [|done].
  intros ((Hh & e & He & _) & _). eauto.
Qed.

Lemma rep_remove_head w a l buf bufsize :
  rep w (a :: l) → 1 <= bufsize →
  ∃ q', q_remove_head w (Some buf) bufsize =
          Some (World (delete a (mem w)) (Some q'),
                Some (filled buf (val (mem w) a) bufsize), true) ∧
        rep (World (delete a (mem w)) (Some q')) l.
Proof.
  unfold rep at 1. destruct (qref w) as [q|] eqn:Hq; [|done].
  intros (Hl & Ht & Hsz & Hmax) Hcap.
  pose proof (lseg_NoDup _ _ _ Hl) as Hnd. apply NoDup_cons in Hnd as [Ha _].
  destruct Hl as (Hh & e & He & Hl).
  eexists. split.
  { erewrite q_remove_head_success by done. unfold val. rewrite He. done. }
  simpl in Hsz, Hmax.
  rewrite to_int_small by (unfold INT_MAX in *; lia).
  unfold rep. simpl. split_and!.
  - eapply lseg_frame; [|done]. intros b Hb.
    rewrite lookup_delete_ne; [done|]. by intros <-.
  - destruct (size q - 1 =? 0) eqn:E.
    + apply Z.eqb_eq in E. destruct l; [done | simpl in *; lia].
    + apply Z.eqb_neq in E. rewrite Ht.
      destruct l as [|b l]; [simpl in *; lia|]. by rewrite last_cons_cons.
  - lia.
  - lia.
Qed.

(** The string the caller finds in the buffer. *)
Lemma c_str_window v m :
  c_str (map (λ i, nth i (c_str v) NUL) (seq 0 m) ++ [NUL]) = take m (c_str v).
Proof.
  revert v. induction m as [|m IH]; intros v.
  { simpl. by rewrite take_0. }
  rewrite <- cons_seq, <- fmap_S_seq. simpl.
  rewrite <- list_fmap_compose.
  destruct v as [|b v]; simpl; [done|].
  destruct (Byte.eqb b NUL) eqn:E; simpl; [done|].
  rewrite E. f_equal. apply IH.
Qed.

Lemma filled_below buf v bufsize i :
  0 <= i < size_sub bufsize 1 →
  filled buf v bufsize i = nth (Z.to_nat i) (c_str v) NUL.
Proof.
  intros Hi. unfold filled, poke, strncpy.
  rewrite (proj2 (Z.eqb_neq _ _)) by lia.
  rewrite (proj2 (Z.leb_le _ _)) by lia.
  by rewrite (proj2 (Z.ltb_lt _ _)) by lia.
Qed.

Lemma filled_at buf v bufsize : filled buf v bufsize (size_sub bufsize 1) = NUL.
Proof. unfold filled, poke. by rewrite Z.eqb_refl. Qed.

Lemma filled_above buf v bufsize i :
  (i < 0 ∨ size_sub bufsize 1 < i) → filled buf v bufsize i = buf i.
Proof.
  intros Hi. pose proof (size_sub_range bufsize 1).
  unfold filled, poke, strncpy.
  rewrite (proj2 (Z.eqb_neq _ _)) by lia.
  destruct (0 <=? i) eqn:E1; [|done].
  apply Z.leb_le in E1. by rewrite (proj2 (Z.ltb_ge _ _)) by lia.
Qed.

Lemma filled_string buf v bufsize :
  1 <= bufsize < size_mod →
  c_str (peek (filled buf v bufsize) (Z.to_nat bufsize)) =
  take (Z.to_nat (bufsize - 1)) (c_str v).
Proof.
  intros Hb. pose proof (size_sub_pos _ Hb) as Hn.
  replace (Z.to_nat bufsize) with (S (Z.to_nat (bufsize - 1))) by lia.
  unfold peek. rewrite seq_S, map_app. simpl.
  rewrite Z2Nat.id by lia. rewrite <- Hn at 2. rewrite filled_at.
  rewrite <- c_str_window. f_equal. f_equal.
  apply map_ext_in. intros i Hi%in_seq.
  rewrite filled_below by lia. by rewrite Nat2Z.id.
Qed.

(** ** What a function leaves alone *)

Lemma same_values_refl h : same_values h h.
Proof. done. Qed.

Lemma same_values_trans h1 h2 h3 :
  same_values h1 h2 → same_values h2 h3 → same_values h1 h3.
Proof. intros H1 H2 a. by rewrite H2, H1. Qed.

Lemma same_links_refl h : same_links h h.
Proof. done. Qed.

Lemma same_links_trans h1 h2 h3 :
  same_links h1 h2 → same_links h2 h3 → same_links h1 h3.
Proof. intros H1 H2 a. by rewrite H2, H1. Qed.

Lemma same_values_val h h' a : same_values h h' → val h' a = val h a.
Proof.
  intros H. specialize (H a). unfold val.
  destruct (h' !! a), (h !! a); simpl in H; congruence.
Qed.

Lemma same_values_dom h h' : same_values h h' → dom h' = dom h.
Proof.
  intros H. apply set_eq. intros a. rewrite !elem_of_dom.
  by rewrite <- (fmap_is_Some value (h' !! a)), <- (fmap_is_Some value (h !! a)), H.
Qed.

Lemma same_links_dom h h' : same_links h h' → dom h' = dom h.
Proof.
  intros H. apply set_eq. intros a. rewrite !elem_of_dom.
  by rewrite <- (fmap_is_Some next (h' !! a)), <- (fmap_is_Some next (h !! a)), H.
Qed.

Lemma same_values_set_next h a e p :
  h !! a = Some e → same_values h (<[a := ListEle (value e) p]> h).
Proof.
  intros He b. rewrite lookup_insert. case_decide; [subst; by rewrite He | done].
Qed.

Lemma same_links_set_value h a e v :
  h !! a = Some e → same_links h (<[a := ListEle v (next e)]> h).
Proof.
  intros He b. rewrite lookup_insert. case_decide; [subst; by rewrite He | done].
Qed.

Lemma same_links_lookup h h' a e :
  same_links h h' → h !! a = Some e → ∃ e', h' !! a = Some e' ∧ next e' = next e.
Proof.
  intros H He. specialize (H a). rewrite He in H.
  destruct (h' !! a) as [e'|]; simpl in H; [|done].
  exists e'. split; [done | congruence].
Qed.

Lemma lseg_same_links h h' p l e : same_links h h' → lseg h p l e → lseg h' p l e.
Proof. intros H. apply lseg_frame. intros a _. apply H. Qed.

Lemma lseg_links_agree h h' p l e a :
  lseg h p l e → lseg h' p l e → a ∈ l → next <$> h' !! a = next <$> h !! a.
Proof.
  revert p. induction l as [|b l IH]; intros p; simpl.
  { intros _ _ H. by apply elem_of_nil in H. }
  intros (-> & n & Hn & H) (_ & n' & Hn' & H') Ha.
  destruct (decide (a = b)) as [->|Hne].
  - rewrite Hn, Hn'. simpl. f_equal.
    apply lseg_hd in H, H'. congruence.
  - apply elem_of_cons in Ha as [?|Ha]; [done|].
    apply lseg_hd in H as Hp. apply lseg_hd in H' as Hp'.
    rewrite Hp in H. rewrite Hp' in H'. eauto.
Qed.

Lemma heap_ext (h h' : heap) :
  same_values h h' → same_links h h' → h' = h.
Proof.
  intros Hv Hl. apply map_eq. intros a.
  specialize (Hv a). specialize (Hl a).
  destruct (h' !! a) as [[v n]|], (h !! a) as [[v' n']|]; simpl in *; congruence.
Qed.

Lemma hd_ptr_None l : hd_ptr l None = hd_error l.
Proof. by destruct l. Qed.

(** ** q_free *)

Lemma q_free_loop_spec fuel h q l :
  lseg h (head q) l None → (length l ≤ fuel)%nat →
  ∃ h', q_free_loop fuel h q = Some h' ∧
        (∀ a, a ∈ l → h' !! a = None) ∧ (∀ a, a ∉ l → h' !! a = h !! a).
Proof.
  revert fuel h q. induction l as [|a l IH]; intros fuel h q Hl Hfuel.
  { simpl in Hl. exists h. destruct fuel; simpl; rewrite Hl; split_and!; try done.
    all: intros a Ha; by apply elem_of_nil in Ha. }
  pose proof (lseg_NoDup _ _ _ Hl) as Hnd. apply NoDup_cons in Hnd as [Ha _].
  destruct Hl as (Hh & e & He & Hl).
  destruct fuel as [|fuel]; [simpl in Hfuel; lia|].
  simpl. rewrite Hh, He. simpl. erewrite free_Some by done. simpl.
  destruct (IH fuel (delete a h) (Queue (next e) (tail q) (to_int (size q - 1))))
    as (h' & Hrun & Hgone & Hkept).
  { simpl. eapply lseg_frame; [|done]. intros b Hb.
    rewrite lookup_delete_ne; [done|]. by intros <-. }
  { simpl in Hfuel. lia. }
  exists h'. split_and!; [done| |].
  - intros b [->|Hb]%elem_of_cons; [|by apply Hgone].
    rewrite Hkept by done. apply lookup_delete_eq.
  - intros b Hb. rewrite Hkept.
    + apply lookup_delete_ne. intros <-. apply Hb. by left.
    + intros Hin. apply Hb. by right.
Qed.

(** [q_free] frees every element of the queue and nothing else. *)
Lemma q_free_spec fuel w l :
  rep w l → (length l ≤ fuel)%nat →
  ∃ h', q_free fuel w = Some h' ∧
        (∀ a, a ∈ l → h' !! a = None) ∧ (∀ a, a ∉ l → h' !! a = mem w !! a).
Proof.
  unfold rep, q_free. destruct (qref w) as [q|].
  - intros (Hl & _) Hfuel. by apply q_free_loop_spec.
  - intros -> _. exists (mem w). split_and!; [done| |done].
    intros a Ha. by apply elem_of_nil in Ha.
Qed.

(** ** q_reverse *)

Lemma reverse_loop_spec fuel h l r done rest :
  lseg h r rest None → lseg h l done None →
  (∀ a, a ∈ rest → a ∉ done) → (length rest ≤ fuel)%nat →
  ∃ h', reverse_loop fuel h l r = Some (h', hd_error (reverse rest ++ done)) ∧
        lseg h' (hd_error (reverse rest ++ done)) (reverse rest ++ done) None ∧
        same_values h h' ∧
        ∀ a, a ∉ rest → h' !! a = h !! a.
Proof.
  revert fuel h l r done.
  induction rest as [|a rest IH]; intros fuel h l r done Hr Hl Hdis Hfuel.
  - simpl in Hr. subst r. exists h. simpl.
    rewrite <- hd_ptr_None. apply lseg_hd in Hl as Hp. rewrite <- Hp.
    split_and!; [by destruct fuel|done..].
  - pose proof (lseg_NoDup _ _ _ Hr) as Hnd.
    apply NoDup_cons in Hnd as [Ha Hnd].
    destruct Hr as (-> & e & He & Hr).
    destruct fuel as [|fuel]; [simpl in Hfuel; lia|].
    simpl. rewrite He. simpl. erewrite set_next_Some by done. simpl.
    set (h1 := <[a := ListEle (value e) l]> h).
    assert (lseg h1 (next e) rest None) as Hr1.
    { eapply lseg_frame; [|done]. intros b Hb. unfold h1.
      rewrite lookup_insert_ne; [done|]. by intros <-. }
    assert (lseg h1 (Some a) (a :: done) None) as Hl1.
    { split; [done|]. eexists. unfold h1. rewrite lookup_insert_eq.
      split; [done|]. simpl. eapply lseg_frame; [|done].
      intros b Hb. rewrite lookup_insert_ne; [done|].
      intros <-. eapply Hdis; [|done]. by left. }
    destruct (IH fuel h1 (Some a) (next e) (a :: done) Hr1 Hl1)
      as (h' & Hrun & Hres & Hval & Hfr).
    { intros b Hb [->|Hd]%elem_of_cons; [done|].
      eapply Hdis; [|done]. by right. }
    { simpl in Hfuel. lia. }
    rewrite reverse_cons, <- app_assoc. simpl.
    exists h'. split_and!; [done..| |].
    + eapply same_values_trans; [|done]. by apply same_values_set_next.
    + intros b Hb. rewrite Hfr by (intros ?; apply Hb; by right).
      unfold h1. rewrite lookup_insert_ne; [done|].
      intros <-. apply Hb. by left.
Qed.

Lemma rep_reverse fuel w l :
  rep w l → (length l ≤ fuel)%nat →
  ∃ w', q_reverse fuel w = Some w' ∧ rep w' (reverse l) ∧
        same_values (mem w) (mem w') ∧
        (∀ a, a ∉ l → mem w' !! a = mem w !! a) ∧
        (∀ q q', qref w = Some q → qref w' = Some q' →
                 head q' = tail q ∧ tail q' = head q ∧ size q' = size q).
Proof.
  unfold rep at 1, q_reverse. destruct (qref w) as [q|] eqn:Hq.
  - intros (Hl & Ht & Hsz & Hmax) Hfuel.
    destruct (reverse_loop_spec fuel (mem w) None (head q) [] l)
      as (h' & Hrun & Hres & Hval & Hfr); [done|done| |done|].
    { intros a _ H. by apply elem_of_nil in H. }
    rewrite app_nil_r in Hrun, Hres. rewrite Hrun. simpl.
    eexists. split; [done|]. split_and!; simpl; [|done..|].
    + unfold rep. simpl. rewrite length_reverse, last_reverse.
      apply lseg_hd in Hl as Hp. rewrite hd_ptr_None in Hp. done.
    + intros ? q' [= <-] [= <-]. simpl. by rewrite head_reverse.
  - intros -> _. exists w. rewrite Hq.
    split_and!; [done| |done|done|congruence].
    unfold rep. by rewrite Hq.
Qed.

(** ** merge_sort *)

Lemma store_spec h root d done x :
  merging h root d done → NoDup done →
  ∃ h1 root1, store h root d x = Some (h1, root1) ∧
              lseg h1 root1 done x ∧ same_values h h1 ∧
              ∀ a, a ∉ done → h1 !! a = h !! a.
Proof.
  destruct d as [|z]; simpl.
  - intros -> _. exists h, x. done.
  - intros (done' & -> & Hseg & [e He]) Hnd.
    apply NoDup_app in Hnd as (_ & Hdis & _).
    erewrite set_next_Some by done. simpl.
    eexists _, root. split; [done|]. split_and!.
    + apply lseg_snoc. split.
      * eapply lseg_frame; [|done]. intros a Ha.
        rewrite lookup_insert_ne; [done|]. intros <-.
        apply (Hdis _ Ha). by left.
      * eexists. by rewrite lookup_insert_eq.
    + by apply same_values_set_next.
    + intros a Ha. rewrite lookup_insert_ne; [done|]. intros <-.
      apply Ha, elem_of_app. right. by left.
Qed.

Lemma lseg_keep h h' p l e (dirty : list addr) :
  (∀ a, a ∉ dirty → h' !! a = h !! a) → (∀ a, a ∈ l → a ∉ dirty) →
  lseg h p l e → lseg h' p l e.
Proof.
  intros Hfr Hdis. apply lseg_frame. intros a Ha. by rewrite Hfr by auto.
Qed.

Lemma perm_move (done l1 l2 : list addr) r :
  (done ++ [r]) ++ l1 ++ l2 ≡ₚ done ++ l1 ++ r :: l2.
Proof.
  rewrite <- app_assoc. apply Permutation_app_head. simpl.
  apply Permutation_middle.
Qed.

Lemma merge_loop_left_end fuel h root d right :
  merge_loop fuel h root d None right = store h root d right.
Proof. by destruct fuel. Qed.

Lemma merge_loop_right_end fuel h root d l :
  merge_loop fuel h root d (Some l) None = store h root d (Some l).
Proof. by destruct fuel. Qed.

Lemma store_rest h root d done x l :
  merging h root d done → lseg h x l None → NoDup (done ++ l) →
  ∃ h1 root1, store h root d x = Some (h1, root1) ∧
              lseg h1 root1 (done ++ l) None ∧ same_values h h1 ∧
              ∀ a, a ∉ done → h1 !! a = h !! a.
Proof.
  intros Hm Hl Hnd. apply NoDup_app in Hnd as (Hnd & Hdis & _).
  destruct (store_spec h root d done x Hm Hnd) as (h1 & root1 & Hst & Hseg & Hval & Hfr).
  exists h1, root1. split_and!; [done| |done..].
  apply lseg_app. exists x. split; [done|].
  eapply lseg_keep; [exact Hfr| |done].
  intros a Ha Hd. by apply (Hdis _ Hd).
Qed.

Lemma merge_loop_spec v fuel h root d done l1 l2 left right :
  merging h root d done →
  lseg h left l1 None → lseg h right l2 None →
  NoDup (done ++ l1 ++ l2) →
  (length l1 + length l2 ≤ S fuel)%nat →
  (∀ a, val h a = v a) →
  StronglySorted (le_by v) l1 → StronglySorted (le_by v) l2 →
  ∃ h' root' m,
    merge_loop fuel h root d left right = Some (h', root') ∧
    lseg h' root' (done ++ m) None ∧ m ≡ₚ l1 ++ l2 ∧
    StronglySorted (le_by v) m ∧ same_values h h' ∧
    ∀ a, a ∉ done ++ l1 ++ l2 → h' !! a = h !! a.
Proof.
  revert h root d done l1 l2 left right.
  induction fuel as [|fuel IH];
    intros h root d done l1 l2 left right Hm H1 H2 Hnd Hlen Hv Hs1 Hs2.
  all: destruct l1 as [|l l1].
  1, 3: simpl in H1; subst left; rewrite merge_loop_left_end;
    destruct (store_rest h root d done right l2 Hm H2 Hnd)
      as (h1 & root1 & Hst & Hseg & Hval & Hfr);
    exists h1, root1, l2; split_and!; [done..|];
    intros a Ha; apply Hfr; intros Hd; apply Ha, elem_of_app; by left.
  all: destruct l2 as [|r l2].
  1, 3: simpl in H2; subst right; rewrite app_nil_r in *;
    pose proof (lseg_hd _ _ _ _ H1) as Hp; simpl in Hp; subst left;
    rewrite merge_loop_right_end;
    destruct (store_rest h root d done (Some l) (l :: l1) Hm H1 Hnd)
      as (h1 & root1 & Hst & Hseg & Hval & Hfr);
    exists h1, root1, (l :: l1); split_and!; [done..|];
    intros a Ha; apply Hfr; intros Hd; apply Ha, elem_of_app; by left.
  { simpl in Hlen. lia. }
  destruct H1 as (-> & le & Hle & H1). destruct H2 as (-> & re & Hre & H2).
  assert (NoDup done) as Hnd' by (by apply NoDup_app in Hnd as (? & _ & _)).
  pose proof Hnd as Hnd0.
  apply NoDup_app in Hnd as (_ & Hdis & Hnd12).
  pose proof Hnd12 as Hnd12'.
  apply NoDup_app in Hnd12 as (Hnd1 & Hdis12 & Hnd2).
  apply NoDup_cons in Hnd1 as [Hl Hnd1]. apply NoDup_cons in Hnd2 as [Hr Hnd2].
  apply StronglySorted_inv in Hs1 as [Hs1 Hl1].
  apply StronglySorted_inv in Hs2 as [Hs2 Hr2].
  simpl. rewrite Hle, Hre. simpl.
  assert (v l = value le) as Hvl by (rewrite <- Hv; unfold val; by rewrite Hle).
  assert (v r = value re) as Hvr by (rewrite <- Hv; unfold val; by rewrite Hre).
  destruct (strcmp (value le) (value re) <? 0) eqn:Hcmp.
  - apply Z.ltb_lt in Hcmp.
    destruct (store_spec h root d done (Some l) Hm Hnd')
      as (h1 & root1 & Hst & Hseg & Hval & Hfr).
    rewrite Hst. simpl.
    assert (l ∉ done) as Hld by (intros Hd; apply (Hdis _ Hd); by left).
    rewrite (Hfr l Hld), Hle. simpl.
    destruct (IH h1 root1 (NextOf l) (done ++ [l]) l1 (r :: l2) (next le) (Some r))
      as (h' & root' & m & Hrun & Hres & Hperm & Hsorted & Hval' & Hfr').
    + exists done. split_and!; [done..|]. rewrite (Hfr l Hld). eauto.
    + eapply lseg_keep; [exact Hfr| |done].
      intros a Ha Hd. apply (Hdis _ Hd). right. apply elem_of_app. by left.
    + eapply lseg_keep; [exact Hfr| |by split; eauto].
      intros a Ha Hd. apply (Hdis _ Hd). right. apply elem_of_app. by right.
    + rewrite <- app_assoc. done.
    + simpl in *. lia.
    + intros a. rewrite <- Hv. by apply same_values_val.
    + done.
    + by apply SSorted_cons.
    + rewrite <- app_assoc in Hres. simpl in Hres.
      exists h', root', (l :: m). split_and!; [done..| | | |].
      * simpl. by constructor.
      * constructor; [done|]. rewrite Hperm. apply Forall_app. split; [done|].
        assert (le_by v l r) as Hlr
          by (unfold le_by; rewrite Hvl, Hvr; by apply str_le_of_lt).
        constructor; [done|].
        eapply Forall_impl; [exact Hr2|]. intros x Hx.
        unfold le_by in *. by eapply str_le_trans.
      * by eapply same_values_trans.
      * intros a Ha. rewrite Hfr'.
        -- apply Hfr. intros Hd. apply Ha, elem_of_app. by left.
        -- rewrite <- app_assoc. done.
  - apply Z.ltb_ge in Hcmp.
    destruct (store_spec h root d done (Some r) Hm Hnd')
      as (h1 & root1 & Hst & Hseg & Hval & Hfr).
    rewrite Hst. simpl.
    assert (r ∉ done) as Hrd.
    { intros Hd. apply (Hdis _ Hd). right. apply elem_of_app. right. by left. }
    rewrite (Hfr r Hrd), Hre. simpl.
    assert (NoDup ((done ++ [r]) ++ (l :: l1) ++ l2)) as Hnd3
      by (by rewrite perm_move).
    destruct (IH h1 root1 (NextOf r) (done ++ [r]) (l :: l1) l2 (Some l) (next re))
      as (h' & root' & m & Hrun & Hres & Hperm & Hsorted & Hval' & Hfr').
    + exists done. split_and!; [done..|]. rewrite (Hfr r Hrd). eauto.
    + eapply lseg_keep; [exact Hfr| |by split; eauto].
      intros a Ha Hd. apply (Hdis _ Hd). apply elem_of_app. by left.
    + eapply lseg_keep; [exact Hfr| |done].
      intros a Ha Hd. apply (Hdis _ Hd). apply elem_of_app. right. by right.
    + done.
    + simpl in *. lia.
    + intros a. rewrite <- Hv. by apply same_values_val.
    + by apply SSorted_cons.
    + done.
    + rewrite <- app_assoc in Hres. simpl in Hres.
      exists h', root', (r :: m). split_and!; [done..| | | |].
      * rewrite Hperm. apply (Permutation_middle (l :: l1) l2 r).
      * constructor; [done|]. rewrite Hperm. apply Forall_app. split; [|done].
        assert (le_by v r l) as Hrl.
        { unfold le_by. rewrite Hvl, Hvr. apply str_le_of_not_lt. lia. }
        constructor; [done|].
        eapply Forall_impl; [exact Hl1|]. intros x Hx.
        unfold le_by in *. by eapply str_le_trans.
      * by eapply same_values_trans.
      * intros a Ha. rewrite Hfr'.
        -- apply Hfr. intros Hd. apply Ha, elem_of_app. by left.
        -- by rewrite perm_move.
Qed.

Lemma find_half_spec fuel h x mid rs right :
  lseg h (Some x) (x :: mid ++ rs) None → lseg h right rs None →
  mid ++ rs ≠ [] → (length rs ≤ S fuel)%nat →
  ∃ l1 y l2, find_half fuel h (Some x) right = Some (Some y) ∧
             x :: mid ++ rs = l1 ++ y :: l2 ∧ l2 ≠ [].
Proof.
  revert x mid rs right.
  induction fuel as [|fuel IH]; intros x mid rs right Hx Hr Hne Hlen.
  all: destruct rs as [|r rs].
  1, 3: simpl in Hr; subst right; exists [], x, (mid ++ []); by split_and!.
  all: destruct Hr as (-> & re & Hre & Hr).
  all: destruct rs as [|rn rs].
  1, 3: simpl in Hr; exists [], x, (mid ++ [r]); simpl; rewrite Hre; simpl;
    rewrite Hr; by split_and!.
  { simpl in Hlen. lia. }
  destruct Hr as (Hrn & rne & Hrne & Hr).
  simpl. rewrite Hre. simpl. rewrite Hrn.
  pose proof Hx as (_ & xe & Hxe & Hx').
  rewrite Hxe. simpl. rewrite Hrne. simpl.
  assert (∃ x' mid', mid ++ [r; rn] = x' :: mid') as (x' & mid' & Hmid).
  { destruct mid; simpl; eauto. }
  assert (mid ++ r :: rn :: rs = x' :: mid' ++ rs) as Heq.
  { change (r :: rn :: rs) with ([r; rn] ++ rs). by rewrite app_assoc, Hmid. }
  rewrite Heq in Hx'. pose proof (lseg_hd _ _ _ _ Hx') as Hp. simpl in Hp.
  rewrite Hp in Hx' |- *.
  destruct (IH x' mid' rs (next rne)) as (l1 & y & l2 & Hrun & Hsplit & Hl2).
  - done.
  - done.
  - intros [-> _]%app_eq_nil. apply (f_equal length) in Hmid.
    rewrite length_app in Hmid. simpl in Hmid. lia.
  - simpl in Hlen. lia.
  - exists (x :: l1), y, l2. split_and!; [done| |done].
    rewrite Heq, Hsplit. done.
Qed.

Lemma merge_sort_short fuel h p l :
  lseg h p l None → (length l ≤ 1)%nat → merge_sort fuel h p = Some (h, p).
Proof.
  intros Hl Hlen. destruct l as [|a [|b l]]; [| |simpl in Hlen; lia].
  - simpl in Hl. subst p. by destruct fuel.
  - destruct Hl as (-> & e & He & Hl). simpl in Hl.
    destruct fuel; simpl; rewrite He; simpl; by rewrite Hl.
Qed.

Lemma merge_sort_spec v fuel h p l :
  lseg h p l None → (length l ≤ fuel)%nat → (∀ a, val h a = v a) →
  ∃ h' p' l',
    merge_sort fuel h p = Some (h', p') ∧
    lseg h' p' l' None ∧ l' ≡ₚ l ∧
    StronglySorted (le_by v) l' ∧ same_values h h' ∧
    ∀ a, a ∉ l → h' !! a = h !! a.
Proof.
  revert h p l. induction fuel as [|fuel IH]; intros h p l Hl Hlen Hv.
  all: destruct (decide (length l ≤ 1)%nat) as [Hshort|Hlong].
  1, 3: exists h, p, l; rewrite (merge_sort_short _ _ _ _ Hl Hshort);
    split_and!; [done..| |done|done];
    destruct l as [|a [|b l]]; [constructor|repeat constructor|simpl in Hshort; lia].
  { lia. }
  destruct l as [|a [|b rest]]; [simpl in Hlong; lia..|].
  pose proof (lseg_NoDup _ _ _ Hl) as Hnd.
  pose proof Hl as (-> & e & He & Hl').
  pose proof (lseg_hd _ _ _ _ Hl') as Hne. simpl in Hne.
  simpl. rewrite He. simpl. rewrite Hne.
  destruct (find_half_spec fuel h a [] (b :: rest) (Some b))
    as (l1 & y & l2 & Hhalf & Hsplit & Hl2); [done| |done| |].
  { by rewrite <- Hne. }
  { simpl in *. lia. }
  rewrite Hhalf. simpl in Hsplit |- *.
  set (l := a :: b :: rest) in *. clearbody l.
  rewrite Hsplit in Hl, Hnd.
  destruct (lseg_next _ _ _ _ _ _ Hl) as (ye & Hye & Hynext).
  rewrite Hye. simpl. erewrite set_next_Some by done. simpl.
  set (h1 := <[y := ListEle (value ye) None]> h).
  apply NoDup_app in Hnd as (Hnd1 & Hdis & Hnd2).
  apply NoDup_cons in Hnd2 as [Hy2 Hnd2].
  assert (y ∉ l1) as Hy1 by (intros H; apply (Hdis _ H); by left).
  apply lseg_app in Hl as (m & Hseg1 & Hseg2).
  pose proof Hseg2 as (-> & ye' & Hye' & Hseg2').
  rewrite Hye in Hye'. injection Hye' as <-.
  assert (same_values h h1) as Hval1 by (by apply same_values_set_next).
  assert (∀ c, c ≠ y → h1 !! c = h !! c) as Hfr1
    by (intros c Hc; unfold h1; by rewrite lookup_insert_ne).
  assert (lseg h1 (Some a) (l1 ++ [y]) None) as HL1.
  { apply lseg_snoc. split.
    - eapply lseg_frame; [|done]. intros c Hc. rewrite Hfr1; [done|].
      by intros ->.
    - eexists. unfold h1. by rewrite lookup_insert_eq. }
  assert (length l = length l1 + S (length l2))%nat as Hlenl
    by (rewrite Hsplit, length_app; done).
  assert (0 < length l2)%nat as Hlen2 by (destruct l2; [done | simpl; lia]).
  destruct (IH h1 (Some a) (l1 ++ [y])) as
    (h2 & p2 & L1 & Hrun1 & Hres1 & Hperm1 & Hsort1 & Hval2 & Hfr2).
  { done. }
  { rewrite length_app. simpl. lia. }
  { intros c. rewrite <- Hv. by apply same_values_val. }
  rewrite Hrun1. simpl.
  destruct (IH h2 (next ye) l2) as
    (h3 & r3 & L2 & Hrun2 & Hres2 & Hperm2 & Hsort2 & Hval3 & Hfr3).
  { eapply lseg_keep; [exact Hfr2| |].
    - intros c Hc [Hc1| ->%list_elem_of_singleton]%elem_of_app; [|done].
      apply (Hdis _ Hc1). by right.
    - eapply lseg_frame; [|done]. intros c Hc. rewrite Hfr1; [done|].
      by intros ->. }
  { lia. }
  { intros c. rewrite <- Hv.
    rewrite (same_values_val h1 h2) by done. by apply same_values_val. }
  rewrite Hrun2. simpl.
  assert (∀ c, c ∈ l2 → c ∉ l1 ++ [y]) as Hdis'.
  { intros c Hc [Hc1| ->%list_elem_of_singleton]%elem_of_app; [|done].
    apply (Hdis _ Hc1). by right. }
  destruct (merge_loop_spec v fuel h3 p2 Root [] L1 L2 p2 r3) as
    (h' & root' & m & Hrun & Hres & Hperm & Hsort & Hval' & Hfr').
  { done. }
  { eapply lseg_keep; [exact Hfr3| |done].
    intros c Hc Hc2. rewrite Hperm1 in Hc. by apply (Hdis' _ Hc2). }
  { done. }
  { simpl. rewrite Hperm1, Hperm2, <- app_assoc. simpl.
    apply NoDup_app. split_and!; [done| |by constructor].
    intros c Hc. by apply Hdis. }
  { rewrite Hperm1, Hperm2, length_app. simpl. lia. }
  { intros c. rewrite <- Hv.
    rewrite (same_values_val h2 h3), (same_values_val h1 h2) by done.
    by apply same_values_val. }
  { done. }
  { done. }
  exists h', root', m. split_and!; [done|done| |done| |].
  - rewrite Hperm, Hperm1, Hperm2, Hsplit, <- app_assoc. done.
  - eauto using same_values_trans.
  - intros c Hc. rewrite Hsplit in Hc.
    rewrite Hfr', Hfr3, Hfr2, Hfr1; [done|..].
    + intros ->. apply Hc, elem_of_app. right. by left.
    + intros Hc1. apply Hc. rewrite (cons_middle y), app_assoc.
      apply elem_of_app. by left.
    + intros Hc2. apply Hc, elem_of_app. right. by right.
    + simpl. rewrite Hperm1, Hperm2. intros Hc'. apply Hc.
      by rewrite (cons_middle y), app_assoc.
Qed.

(** ** The walk to the tail *)

Lemma tail_walk_spec fuel h t l :
  lseg h t l None → (length l ≤ S fuel)%nat → tail_walk fuel h t = Some (last l).
Proof.
  revert t l. induction fuel as [|fuel IH]; intros t l Hl Hlen.
  all: destruct l as [|a l]; [simpl in Hl; by subst t|].
  all: destruct Hl as (-> & e & He & Hl).
  all: destruct l as [|b l].
  1, 3: simpl in Hl; simpl; rewrite He; simpl; by rewrite Hl.
  { simpl in Hlen. lia. }
  pose proof (lseg_hd _ _ _ _ Hl) as Hn. simpl in Hn.
  simpl. rewrite He. simpl. rewrite Hn. rewrite <- Hn.
  rewrite (IH (next e) (b :: l)); [done..|]. simpl in Hlen. simpl. lia.
Qed.

Lemma tail_walk_from fuel h p l t :
  lseg h p l None → t ∈ l → (length l ≤ S fuel)%nat →
  tail_walk fuel h (Some t) = Some (last l).
Proof.
  intros Hl Ht Hlen. apply list_elem_of_split in Ht as (l1 & l2 & ->).
  apply lseg_app in Hl as (m & _ & Hl2).
  pose proof (lseg_hd _ _ _ _ Hl2) as Hm. simpl in Hm. subst m.
  rewrite last_app_cons, (tail_walk_spec _ _ _ _ Hl2); [done|].
  rewrite length_app in Hlen. lia.
Qed.

Lemma tail_walk_rep fuel h p l l' t :
  lseg h p l' None → l' ≡ₚ l → t = last l → (length l ≤ S fuel)%nat →
  tail_walk fuel h t = Some (last l').
Proof.
  intros Hl Hperm -> Hlen.
  destruct (last l) as [t|] eqn:Hlast.
  - eapply tail_walk_from; [done| |by rewrite Hperm].
    rewrite Hperm. apply last_Some in Hlast as [l0 ->].
    apply elem_of_app. right. by left.
  - apply last_None in Hlast. subst l. apply Permutation_nil_r in Hperm.
    subst l'. by destruct fuel.
Qed.

(** ** q_sort, with merge_sort *)

Lemma rep_sort_merge fuel w l :
  rep w l → (length l ≤ fuel)%nat →
  ∃ w' l', q_sort_with true fuel w = Some w' ∧ rep w' l' ∧ l' ≡ₚ l ∧
           StronglySorted (le_by (val (mem w))) l' ∧
           same_values (mem w) (mem w') ∧
           (∀ a, a ∉ l → mem w' !! a = mem w !! a) ∧
           q_size w' = q_size w.
Proof.
  unfold rep at 1, q_sort_with, q_size. destruct (qref w) as [q|] eqn:Hq.
  - intros (Hl & Ht & Hsz & Hmax) Hfuel.
    destruct (merge_sort_spec (val (mem w)) fuel (mem w) (head q) l)
      as (h' & p' & l' & Hrun & Hres & Hperm & Hsort & Hval & Hfr); [done..|].
    rewrite Hrun. simpl.
    erewrite tail_walk_rep; [|done|done|done|lia]. simpl.
    eexists _, l'. split; [done|]. simpl. split_and!; [|done..].
    unfold rep. simpl. split_and!; [done|done|by rewrite Hperm..].
  - intros -> _. exists w, []. rewrite Hq. split_and!; try done.
    + unfold rep. by rewrite Hq.
    + constructor.
Qed.

(** ** quick_sort *)

Lemma swap_str_spec h a b ea eb :
  h !! a = Some ea → h !! b = Some eb →
  ∃ h', swap_str h a b = Some h' ∧ same_links h h' ∧
        val h' a = val h b ∧ val h' b = val h a ∧
        ∀ c, c ≠ a → c ≠ b → h' !! c = h !! c.
Proof.
  intros Ha Hb. unfold swap_str. rewrite Ha, Hb. simpl.
  erewrite set_value_Some by done. simpl.
  set (h1 := <[a := ListEle (value eb) (next ea)]> h).
  assert (same_links h h1) as Hl1 by (by apply same_links_set_value).
  assert (∃ eb1, h1 !! b = Some eb1) as [eb1 Hb1].
  { unfold h1. rewrite lookup_insert. case_decide; eauto. }
  erewrite set_value_Some by done.
  eexists. split; [done|]. split_and!.
  - eapply same_links_trans; [done|]. by apply same_links_set_value.
  - rewrite val_insert. case_decide as E.
    + subst b. simpl. unfold val. by rewrite Ha.
    + unfold h1. rewrite val_insert, decide_True by done.
      simpl. unfold val. by rewrite Hb.
  - rewrite val_insert, decide_True by done. simpl. unfold val. by rewrite Ha.
  - intros c Hca Hcb. rewrite lookup_insert_ne by done.
    unfold h1. by rewrite lookup_insert_ne.
Qed.

Lemma vals_same h h' (l : list addr) :
  (∀ c, c ∈ l → val h' c = val h c) → map (val h') l = map (val h) l.
Proof.
  intros H. apply map_ext_in. intros c Hc. apply H. by apply list_elem_of_In.
Qed.

Lemma vals_swap h h' A a B b C :
  val h' a = val h b → val h' b = val h a →
  (∀ c, c ∈ A ++ B ++ C → val h' c = val h c) →
  map (val h') (A ++ a :: B ++ b :: C) ≡ₚ map (val h) (A ++ a :: B ++ b :: C).
Proof.
  intros Ha Hb Hrest.
  rewrite !map_app. simpl. rewrite !map_app. simpl.
  rewrite Ha, Hb.
  rewrite (vals_same h h' A), (vals_same h h' B), (vals_same h h' C).
  - apply Permutation_app_head.
    rewrite <- !Permutation_middle. apply perm_swap.
  - intros c Hc. apply Hrest. rewrite !elem_of_app. auto.
  - intros c Hc. apply Hrest. rewrite !elem_of_app. auto.
  - intros c Hc. apply Hrest. rewrite !elem_of_app. auto.
Qed.

Lemma sorted_join pv (A B : list (list byte)) :
  StronglySorted str_le A → StronglySorted str_le B →
  Forall (below pv) A → Forall (λ x, ¬ below pv x) B →
  StronglySorted str_le (A ++ pv :: B).
Proof.
  intros HA HB Hlt Hge.
  assert (Forall (str_le pv) B) as HpB.
  { eapply Forall_impl; [exact Hge|]. intros x Hx. by apply str_le_of_not_lt. }
  apply StronglySorted_app_2; [|done|by constructor].
  intros x y Hx Hy. rewrite Forall_forall in Hlt. pose proof (Hlt _ Hx) as Hxp.
  apply str_le_of_lt in Hxp.
  apply elem_of_cons in Hy as [->|Hy]; [done|].
  rewrite Forall_forall in HpB. eapply str_le_trans; [done|]. by apply HpB.
Qed.

Lemma quick_sort_no_last fuel h first : quick_sort fuel h first None = Some h.
Proof. destruct fuel, first; done. Qed.

Lemma quick_sort_no_first fuel h last : quick_sort fuel h None last = Some h.
Proof. by destruct fuel. Qed.

Lemma quick_sort_same fuel h a : quick_sort fuel h (Some a) (Some a) = Some h.
Proof. destruct fuel; simpl; by rewrite decide_True. Qed.

Lemma quick_sort_past fuel h first la e :
  h !! la = Some e → next e = first → quick_sort fuel h first (Some la) = Some h.
Proof.
  intros He Hn. destruct first as [f|]; [|apply quick_sort_no_first].
  destruct fuel; simpl; (case_decide; [done|]); rewrite He; simpl;
    by rewrite decide_True.
Qed.

Lemma app_snoc_cons {A} (l : list A) x l' : (l ++ [x]) ++ l' = l ++ x :: l'.
Proof. by rewrite <- app_assoc. Qed.

Lemma partition_loop_done fuel h l prev la :
  partition_loop fuel h l (Some la) prev la = Some (h, l, prev).
Proof. destruct fuel; simpl; by rewrite decide_True. Qed.

Lemma partition_loop_spec fuel h p0 e la pv s1 s2 s3 :
  lseg h p0 (s1 ++ s2 ++ s3 ++ [la]) e →
  NoDup (s1 ++ s2 ++ s3 ++ [la]) →
  val h la = pv →
  Forall (below pv) (map (val h) s1) →
  Forall (λ x, ¬ below pv x) (map (val h) s2) →
  (length s3 ≤ fuel)%nat →
  ∃ h' s1' s2',
    partition_loop fuel h (hd_ptr (s2 ++ s3 ++ [la]) e)
                   (hd_ptr (s3 ++ [la]) e) (last s1) la
      = Some (h', hd_ptr (s2' ++ [la]) e, last s1') ∧
    s1' ++ s2' = s1 ++ s2 ++ s3 ∧
    same_links h h' ∧
    (∀ c, c ∉ s1 ++ s2 ++ s3 → h' !! c = h !! c) ∧
    map (val h') (s1 ++ s2 ++ s3) ≡ₚ map (val h) (s1 ++ s2 ++ s3) ∧
    Forall (below pv) (map (val h') s1') ∧
    Forall (λ x, ¬ below pv x) (map (val h') s2').
Proof.
  revert fuel h s1 s2.
  induction s3 as [|r0 s3 IH]; intros fuel h s1 s2 Hseg Hnd Hpv Hlow Hhigh Hfuel.
  { exists h, s1, s2. simpl. rewrite partition_loop_done, !app_nil_r.
    split_and!; done. }
  destruct fuel as [|fuel]; [simpl in Hfuel; lia|].
  assert (r0 ≠ la) as Hr0la.
  { intros ->. rewrite !app_assoc in Hnd.
    apply NoDup_app in Hnd as (_ & Hdis & _).
    apply (Hdis la); [|by left].
    rewrite <- !app_assoc. rewrite !elem_of_app. right. right. by left. }
  assert (is_Some (h !! r0)) as [re Hre].
  { eapply lseg_live; [done|]. rewrite !elem_of_app. right. right. left. by left. }
  assert (is_Some (h !! la)) as [laste Hlaste].
  { eapply lseg_live; [done|]. rewrite !elem_of_app. right. right. right. by left. }
  assert (val h r0 = value re) as Hvr by (unfold val; by rewrite Hre).
  assert (pv = value laste) as Hvl by (rewrite <- Hpv; unfold val; by rewrite Hlaste).
  assert (next re = hd_ptr (s3 ++ [la]) e) as Hnr.
  { rewrite (app_assoc s1 s2) in Hseg.
    destruct (lseg_next h p0 (s1 ++ s2) r0 (s3 ++ [la]) e Hseg) as (n & Hn & Hnext).
    congruence. }
  cbn [partition_loop]. rewrite decide_False by (simpl; congruence).
  cbn [hd_ptr app mbind option_bind]. rewrite Hre, Hlaste. cbn [mbind option_bind].
  destruct (strcmp (value re) (value laste) <? 0) eqn:Hcmp.
  - apply Z.ltb_lt in Hcmp.
    assert (below pv (val h r0)) as Hbelow by (unfold below; congruence).
    destruct s2 as [|x t2].
    + (* the boundary is at [r0] itself *)
      cbn [hd_ptr app mbind option_bind].
      destruct (swap_str_spec h r0 r0 re re) as (h1 & Hsw & Hlk & Hv1 & _ & Hfr);
        [done..|].
      rewrite Hsw. cbn [mbind option_bind].
      assert (∃ e1, h1 !! r0 = Some e1 ∧ next e1 = next re) as (e1 & He1 & Hn1).
      { specialize (Hlk r0). rewrite Hre in Hlk.
        destruct (h1 !! r0) as [e1|]; simpl in Hlk; [|done].
        exists e1. split; [done | congruence]. }
      rewrite He1. cbn [mbind option_bind]. rewrite Hn1, Hnr.
      assert (∀ c, val h1 c = val h c) as Hsame.
      { intros c. destruct (decide (c = r0)) as [->|Hc]; [done|].
        unfold val. by rewrite Hfr. }
      destruct (IH fuel h1 (s1 ++ [r0]) []) as
        (h' & s1' & s2' & Hrun & Heq & Hlk' & Hfr' & Hperm & Hlow' & Hhigh').
      * rewrite app_snoc_cons. simpl. by eapply lseg_same_links.
      * rewrite app_snoc_cons. done.
      * by rewrite Hsame.
      * rewrite (vals_same h h1) by done. rewrite map_app. apply Forall_app.
        split; [done|]. by repeat constructor.
      * constructor.
      * simpl in Hfuel. lia.
      * rewrite last_snoc in Hrun. simpl in Hrun.
        exists h', s1', s2'. split_and!; [done| | | | |done|done].
        -- rewrite Heq, app_snoc_cons. done.
        -- by eapply same_links_trans.
        -- intros c Hc. simpl in Hc. rewrite Hfr'.
           ++ apply Hfr; intros ->; apply Hc; rewrite elem_of_app; right; by left.
           ++ rewrite app_snoc_cons. done.
        -- simpl. rewrite app_snoc_cons in Hperm. simpl in Hperm.
           rewrite Hperm. by rewrite (vals_same h h1).
    + (* the boundary is at [x], before [r0] *)
      cbn [hd_ptr app mbind option_bind].
      assert (x ≠ r0) as Hxr.
      { intros ->. apply NoDup_app in Hnd as (_ & _ & Hnd).
        apply NoDup_cons in Hnd as [Hx _]. apply Hx.
        rewrite !elem_of_app. right. left. by left. }
      assert (is_Some (h !! x)) as [xe Hxe].
      { eapply lseg_live; [done|]. rewrite !elem_of_app. right. left. by left. }
      destruct (swap_str_spec h r0 x re xe) as (h1 & Hsw & Hlk & Hv1 & Hv2 & Hfr);
        [done..|].
      rewrite Hsw. cbn [mbind option_bind].
      assert (∃ e1, h1 !! x = Some e1 ∧ next e1 = hd_ptr (t2 ++ r0 :: s3 ++ [la]) e)
        as (e1 & He1 & Hn1).
      { destruct (lseg_next h p0 s1 x (t2 ++ (r0 :: s3) ++ [la]) e Hseg)
          as (n & Hn & Hnext).
        specialize (Hlk x). rewrite Hn in Hlk.
        destruct (h1 !! x) as [e1|]; simpl in Hlk; [|done].
        exists e1. split; [done|]. simpl in Hnext. congruence. }
      assert (∃ e2, h1 !! r0 = Some e2 ∧ next e2 = next re) as (e2 & He2 & Hn2).
      { specialize (Hlk r0). rewrite Hre in Hlk.
        destruct (h1 !! r0) as [e2|]; simpl in Hlk; [|done].
        exists e2. split; [done | congruence]. }
      rewrite He1. cbn [mbind option_bind]. rewrite He2. cbn [mbind option_bind].
      rewrite Hn1, Hn2, Hnr.
      assert (∀ c, c ≠ r0 → c ≠ x → val h1 c = val h c) as Hsame.
      { intros c ? ?. unfold val. by rewrite Hfr. }
      apply Forall_cons in Hhigh as [Hhx Hhigh].
      assert (NoDup (s1 ++ x :: t2 ++ r0 :: s3)) as Hnd'.
      { rewrite !app_assoc in Hnd. apply NoDup_app in Hnd as (Hnd & _ & _).
        by rewrite <- !app_assoc in Hnd. }
      assert (∀ c, c ∈ s1 ++ t2 ++ s3 → c ≠ r0 ∧ c ≠ x) as Hothers.
      { intros c Hc. apply NoDup_app in Hnd' as (_ & Hd1 & Hnd2).
        apply NoDup_cons in Hnd2 as [Hx Hnd2].
        apply NoDup_app in Hnd2 as (_ & Hd2 & Hnd3).
        apply NoDup_cons in Hnd3 as [Hr _].
        rewrite !elem_of_app in Hc. destruct Hc as [Hc|[Hc|Hc]].
        - split; intros ->; apply (Hd1 _ Hc); [|by left].
          right. rewrite elem_of_app. right. by left.
        - split; intros ->; [apply (Hd2 _ Hc); by left|].
          apply Hx. rewrite elem_of_app. by left.
        - split; intros ->; [done|].
          apply Hx. rewrite elem_of_app. right. by right. }
      destruct (IH fuel h1 (s1 ++ [x]) (t2 ++ [r0])) as
        (h' & s1' & s2' & Hrun & Heq & Hlk' & Hfr' & Hperm & Hlow' & Hhigh').
      * rewrite !app_snoc_cons. by eapply lseg_same_links.
      * rewrite !app_snoc_cons. done.
      * rewrite Hsame; [done|congruence|].
        intros ->. apply NoDup_app in Hnd as (_ & _ & Hnd).
        apply NoDup_cons in Hnd as [Hx _]. apply Hx.
        rewrite !elem_of_app. right. right. by left.
      * rewrite map_app. apply Forall_app. split.
        -- rewrite (vals_same h h1); [done|]. intros c Hc.
           apply Hsame; apply Hothers; rewrite !elem_of_app; auto.
        -- simpl. rewrite Hv2. by repeat constructor.
      * rewrite map_app. apply Forall_app. split.
        -- rewrite (vals_same h h1); [done|]. intros c Hc.
           apply Hsame; apply Hothers; rewrite !elem_of_app; auto.
        -- simpl. rewrite Hv1. by repeat constructor.
      * simpl in Hfuel. lia.
      * rewrite last_snoc in Hrun. rewrite app_snoc_cons in Hrun.
        exists h', s1', s2'. split_and!; [done| | | | |done|done].
        -- rewrite Heq, !app_snoc_cons. done.
        -- by eapply same_links_trans.
        -- intros c Hc. rewrite Hfr'.
           ++ apply Hfr; intros ->; apply Hc; in_list.
           ++ rewrite !app_snoc_cons. done.
        -- rewrite !app_snoc_cons in Hperm. rewrite Hperm.
           apply (vals_swap h h1 s1 x t2 r0 s3); [done..|].
           intros c Hc. apply Hsame; by apply Hothers.
  - apply Z.ltb_ge in Hcmp. rewrite Hnr.
    assert (¬ below pv (val h r0)) as Hnb.
    { unfold below. rewrite Hvr, Hvl. lia. }
    destruct (IH fuel h s1 (s2 ++ [r0])) as
      (h' & s1' & s2' & Hrun & Heq & Hlk' & Hfr' & Hperm & Hlow' & Hhigh').
    + rewrite !app_snoc_cons. done.
    + rewrite !app_snoc_cons. done.
    + done.
    + done.
    + rewrite map_app. apply Forall_app. split; [done|]. by repeat constructor.
    + simpl in Hfuel. lia.
    + rewrite app_snoc_cons in Hrun, Heq, Hperm.
      exists h', s1', s2'. split_and!; [done|done|done| |done|done|done].
      intros c Hc. apply Hfr'. by rewrite app_snoc_cons.
Qed.

Lemma sorts_range_nil h : sorts_range h h [].
Proof. split_and!; [done..|constructor]. Qed.

(** The first recursive call: its range may be empty, and [prev] is
    [NULL] then. *)
Lemma quick_sort_prefix fuel h f seg post :
  quick_sort_ok fuel →
  lseg h (Some f) (seg ++ post) None → (length seg ≤ fuel)%nat →
  ∃ h', quick_sort fuel h (Some f) (last seg) = Some h' ∧ sorts_range h h' seg.
Proof.
  intros IH Hl Hlen. destruct (last seg) as [pa|] eqn:Hlast.
  - apply last_Some in Hlast as [s ->]. by eapply IH.
  - apply last_None in Hlast. subst seg. rewrite quick_sort_no_last.
    exists h. split; [done|]. apply sorts_range_nil.
Qed.

Lemma quick_sort_step fuel : quick_sort_ok fuel → quick_sort_ok (S fuel).
Proof.
  intros IH h f s la post Hwhole Hlen.
  destruct s as [|s0 s'].
  { destruct Hwhole as ([= ->] & _). rewrite quick_sort_same.
    exists h. split; [done|]. split_and!; [done..|]. repeat constructor. }
  assert (∀ e, hd_ptr ((s0 :: s') ++ [la]) e = Some s0) as Hhd0 by done.
  assert (s0 ∈ s0 :: s') as Hs0 by (by left).
  remember (s0 :: s') as s eqn:Hs. clear Hs.
  pose proof (lseg_NoDup _ _ _ Hwhole) as Hnd.
  pose proof Hwhole as Hsplit. apply lseg_app in Hsplit as (e & Hseg & Hpost).
  pose proof (lseg_hd _ _ _ _ Hpost) as He. rewrite He in Hseg.
  pose proof Hseg as Hlast. apply lseg_snoc in Hlast as (_ & laste & Hlaste & Hnl).
  pose proof (lseg_hd _ _ _ _ Hseg) as Hf. rewrite Hhd0 in Hf. injection Hf as ->.
  apply NoDup_app in Hnd as (Hnds & Hdisp & _).
  assert (s0 ≠ la) as Hfl.
  { intros ->. apply NoDup_app in Hnds as (_ & Hd & _).
    apply (Hd la); [done|by left]. }
  assert (hd_ptr post None ≠ Some s0) as Hnf.
  { destruct post as [|p0 post]; [done|]. simpl. intros [= ->].
    apply (Hdisp s0); [in_list|by left]. }
  cbn [quick_sort]. rewrite decide_False by congruence.
  rewrite Hlaste. cbn [mbind option_bind]. rewrite decide_False by congruence.
  destruct (partition_loop_spec fuel h (Some s0) (hd_ptr post None) la
              (val h la) [] [] s)
    as (h1 & s1 & s2 & Hrun & Heq & Hlk1 & Hfr1 & Hperm1 & Hlow & Hhigh);
    [done|done|done|constructor|constructor| |].
  { rewrite length_app in Hlen. simpl in Hlen. lia. }
  simpl in Hrun, Heq, Hfr1, Hperm1. rewrite Hhd0 in Hrun.
  rewrite Hrun. cbn [mbind option_bind].
  assert (la ∉ s) as Hlas.
  { intros H. apply NoDup_app in Hnds as (_ & Hd & _). apply (Hd _ H). by left. }
  assert (val h1 la = val h la) as Hpv1 by (unfold val; by rewrite Hfr1).
  assert (lseg h1 (Some s0) ((s ++ [la]) ++ post) None) as Hwhole1
    by (by eapply lseg_same_links).
  assert (is_Some (h1 !! la)) as [laste1 Hlaste1].
  { eapply lseg_live; [exact Hwhole1|]. in_list. }
  destruct s2 as [|x t].
  - (* everything went before the pivot *)
    rewrite app_nil_r in Heq. subst s1. cbn [hd_ptr app mbind option_bind].
    destruct (swap_str_spec h1 la la laste1 laste1) as (h2 & Hsw & Hlk2 & Hv2 & _ & Hfr2);
      [done..|].
    rewrite Hsw. cbn [mbind option_bind].
    assert (∀ c, val h2 c = val h1 c) as Hsame2.
    { intros c. destruct (decide (c = la)) as [->|Hc]; [done|].
      unfold val. by rewrite Hfr2. }
    destruct (quick_sort_prefix fuel h2 s0 s ([la] ++ post) IH)
      as (h3 & Hq1 & Hlk3 & Hfr3 & Hperm3 & Hsort3).
    { rewrite app_assoc. by eapply lseg_same_links. }
    { rewrite length_app in Hlen. simpl in Hlen. lia. }
    rewrite Hq1. cbn [mbind option_bind].
    assert (same_links h h3) as Hlk03 by eauto using same_links_trans.
    destruct (same_links_lookup _ _ _ _ Hlk03 Hlaste) as (le3 & Hle3 & Hn3).
    rewrite Hle3. cbn [mbind option_bind].
    rewrite (quick_sort_past _ h3 _ la le3) by done.
    assert (val h3 la = val h la) as Hla3.
    { unfold val at 1. rewrite Hfr3 by done. fold (val h2 la). congruence. }
    exists h3. split; [done|]. split_and!.
    + done.
    + intros c Hc. rewrite Hfr3, Hfr2, Hfr1; [done|..]; try (intros ->; apply Hc);
        try (intros H; apply Hc); in_list.
    + rewrite !map_app. simpl. rewrite Hla3.
      apply Permutation_app_tail. rewrite Hperm3, (vals_same h1 h2) by done. done.
    + rewrite map_app. simpl. rewrite Hla3.
      apply sorted_join; [done|constructor| |constructor].
      rewrite Hperm3, (vals_same h1 h2) by done. done.
  - (* the boundary [x] takes the pivot *)
    cbn [hd_ptr app mbind option_bind].
    subst s.
    assert (x ≠ la) as Hxl by (intros ->; apply Hlas; in_list).
    assert (is_Some (h1 !! x)) as [xe Hxe].
    { eapply lseg_live; [exact Hwhole1|]. in_list. }
    destruct (swap_str_spec h1 x la xe laste1) as (h2 & Hsw & Hlk2 & Hv2x & Hv2l & Hfr2);
      [done..|].
    rewrite Hsw. cbn [mbind option_bind].
    assert (lseg h2 (Some s0) (s1 ++ x :: (t ++ [la]) ++ post) None) as Hwhole2.
    { eapply lseg_same_links; [done|].
      replace (s1 ++ x :: (t ++ [la]) ++ post)
        with (((s1 ++ x :: t) ++ [la]) ++ post); [done|].
      by rewrite <- !app_assoc. }
    rewrite <- app_assoc in Hnds. simpl in Hnds.
    pose proof Hnds as Hnds'.
    apply NoDup_app in Hnds' as (_ & Hd1 & Hnd2).
    apply NoDup_cons in Hnd2 as [Hxt _].
    destruct (quick_sort_prefix fuel h2 s0 s1 (x :: (t ++ [la]) ++ post) IH)
      as (h3 & Hq1 & Hlk3 & Hfr3 & Hperm3 & Hsort3).
    { done. }
    { rewrite !length_app in Hlen. simpl in Hlen. lia. }
    rewrite Hq1. cbn [mbind option_bind].
    assert (lseg h3 (Some s0) (s1 ++ x :: (t ++ [la]) ++ post) None) as Hwhole3
      by (by eapply lseg_same_links).
    destruct (lseg_next _ _ _ _ _ _ Hwhole3) as (xe3 & Hxe3 & Hnx3).
    rewrite Hxe3. cbn [mbind option_bind]. rewrite Hnx3.
    assert (hd_ptr ((t ++ [la]) ++ post) None = hd_ptr (t ++ [la]) None) as Hhd
      by (by destruct t).
    assert (∃ f2, hd_ptr (t ++ [la]) None = Some f2) as [f2 Hf2]
      by (destruct t; simpl; eauto).
    rewrite Hhd, Hf2.
    destruct (IH h3 f2 t la post) as (h4 & Hq2 & Hlk4 & Hfr4 & Hperm4 & Hsort4).
    { apply lseg_app in Hwhole3 as (m & _ & (_ & n & Hn & Hrest)).
      pose proof (lseg_hd _ _ _ _ Hrest) as Hm. rewrite Hhd, Hf2 in Hm.
      by rewrite <- Hm. }
    { rewrite !length_app in Hlen. rewrite length_app. simpl in *. lia. }
    rewrite Hq2. exists h4. split; [done|].
    assert (∀ c, c ∈ s1 → c ∉ x :: t ++ [la]) as Hdis1.
    { intros c Hc. by apply Hd1. }
    assert (map (val h4) s1 = map (val h3) s1) as E1.
    { apply vals_same. intros c Hc. unfold val. rewrite Hfr4; [done|].
      intros H. apply (Hdis1 _ Hc). by right. }
    assert (map (val h2) s1 = map (val h1) s1) as E2.
    { apply vals_same. intros c Hc. unfold val. rewrite Hfr2; [done|..].
      - intros ->. apply (Hdis1 _ Hc). by left.
      - intros ->. apply (Hdis1 _ Hc). in_list. }
    assert (val h4 x = val h la) as E3.
    { unfold val at 1. rewrite Hfr4 by done. rewrite Hfr3.
      - fold (val h2 x). by rewrite Hv2x.
      - intros H. apply (Hdis1 _ H). by left. }
    assert (map (val h3) (t ++ [la]) = map (val h2) (t ++ [la])) as E4.
    { apply vals_same. intros c Hc. unfold val. rewrite Hfr3; [done|].
      intros H. apply (Hdis1 _ H). by right. }
    assert (map (val h2) t = map (val h1) t) as E5.
    { apply vals_same. intros c Hc. unfold val. rewrite Hfr2; [done|..].
      - intros ->. apply Hxt. in_list.
      - intros ->. apply Hlas. in_list. }
    simpl in Hhigh. apply Forall_cons in Hhigh as [Hhx Hhigh].
    split_and!.
    + eauto using same_links_trans.
    + intros c Hc. rewrite Hfr4, Hfr3, Hfr2, Hfr1; [done|..];
        try (intros ->; apply Hc); try (intros H; apply Hc); in_list.
    + rewrite <- app_assoc. simpl.
      transitivity (map (val h1) (s1 ++ x :: t ++ la :: [])).
      * transitivity (map (val h2) (s1 ++ x :: t ++ [la])).
        -- rewrite (map_app _ s1), (map_app _ s1). simpl.
           rewrite E1, Hperm3. apply Permutation_app_head.
           rewrite E3, Hv2x, Hpv1. constructor.
           rewrite Hperm4, E4. done.
        -- apply (vals_swap h1 h2 s1 x t la []); [done..|].
           intros c Hc. rewrite app_nil_r in Hc. unfold val. rewrite Hfr2; [done|..].
           ++ intros ->. apply elem_of_app in Hc as [Hc|Hc].
              ** apply (Hdis1 _ Hc). by left.
              ** apply Hxt. in_list.
           ++ intros ->. apply Hlas. in_list.
      * change (s1 ++ x :: t ++ [la]) with (s1 ++ (x :: t) ++ [la]).
        rewrite !(app_assoc s1 (x :: t)).
        rewrite (map_app _ (s1 ++ x :: t)), (map_app _ (s1 ++ x :: t)).
        simpl. rewrite Hpv1. by apply Permutation_app_tail.
    + rewrite <- app_assoc. simpl. rewrite map_app. simpl. rewrite E3.
      apply sorted_join; [by rewrite E1|done| |].
      * by rewrite E1, Hperm3, E2.
      * rewrite Hperm4, E4, map_app, E5. simpl. rewrite Hv2l.
        apply Forall_app. split; [done|]. by repeat constructor.
Qed.

Lemma quick_sort_spec fuel : quick_sort_ok fuel.
Proof.
  induction fuel as [|fuel IH]; [|by apply quick_sort_step].
  intros h f s la post _ Hlen. rewrite length_app in Hlen. simpl in Hlen. lia.
Qed.

(** ** q_sort, with quick_sort *)

Lemma rep_sort_quick fuel w l :
  rep w l → (length l ≤ fuel)%nat →
  ∃ w', q_sort_with false fuel w = Some w' ∧ rep w' l ∧
        sorts_range (mem w) (mem w') l ∧ q_size w' = q_size w.
Proof.
  unfold rep at 1, q_sort_with, q_size. destruct (qref w) as [q|] eqn:Hq.
  - intros (Hl & Ht & Hsz & Hmax) Hfuel.
    assert (∃ h', quick_sort fuel (mem w) (head q) (tail q) = Some h' ∧
                  sorts_range (mem w) h' l) as (h' & Hrun & Hres).
    { destruct (last l) as [la|] eqn:Hlast.
      - apply last_Some in Hlast as [s ->].
        pose proof (lseg_hd _ _ _ _ Hl) as Hh.
        assert (∃ f, head q = Some f) as [f Hf]
          by (rewrite Hh; destruct s; simpl; eauto).
        rewrite Ht, Hf. apply (quick_sort_spec fuel (mem w) f s la []); [|done].
        by rewrite app_nil_r, <- Hf.
      - apply last_None in Hlast. subst l. simpl in Hl. rewrite Hl.
        rewrite quick_sort_no_first. exists (mem w). split; [done|].
        apply sorts_range_nil. }
    rewrite Hrun. simpl.
    pose proof Hres as (Hlk & _).
    assert (lseg h' (head q) l None) as Hl' by (by eapply lseg_same_links).
    erewrite tail_walk_rep; [|done|done|done|lia]. simpl.
    eexists. split; [done|]. simpl. split_and!; [|done..].
    unfold rep. simpl. done.
  - intros -> _. exists w. rewrite Hq. split_and!; try done.
    + unfold rep. by rewrite Hq.
    + apply sorts_range_nil.
Qed.

(** ** Sorted lists of strings *)

Lemma sorted_by_vals v (l : list addr) :
  StronglySorted (le_by v) l → StronglySorted str_le (map v l).
Proof.
  induction 1 as [|a l Hs IH Hall]; simpl; constructor; [done|].
  apply Forall_map. eapply Forall_impl; [exact Hall|]. done.
Qed.

Lemma sorted_c_str (l : list (list byte)) :
  StronglySorted str_le l → StronglySorted str_le (map c_str l).
Proof.
  induction 1 as [|a l Hs IH Hall]; simpl; constructor; [done|].
  apply Forall_map. eapply Forall_impl; [exact Hall|].
  intros b Hb. unfold str_le in *. simpl. by rewrite strcmp_c_str.
Qed.

Lemma payloads_vals h (l : list addr) :
  map (payload h) l = map c_str (map (val h) l).
Proof. by rewrite map_map. Qed.

Lemma payloads_same_values h h' (l : list addr) :
  same_values h h' → map (payload h') l = map (payload h) l.
Proof.
  intros H. apply map_ext. intros a. unfold payload.
  by rewrite (same_values_val h h').
Qed.

(** Two sorted lists of strings with the same elements are equal. *)
Lemma sorted_strings_unique (l1 l2 : list (list byte)) :
  StronglySorted str_le (map c_str l1) → StronglySorted str_le (map c_str l2) →
  map c_str l1 ≡ₚ map c_str l2 → map c_str l1 = map c_str l2.
Proof.
  intros H1 H2 Hperm.
  apply (StronglySorted_unique_strong str_le); [|done..].
  intros x y Hx Hy Hxy Hyx.
  apply list_elem_of_fmap in Hx as (x' & -> & _).
  apply list_elem_of_fmap in Hy as (y' & -> & _).
  pose proof (str_le_antisym _ _ Hxy Hyx) as E.
  by rewrite !c_str_idem in E.
Qed.

Lemma strongly_sorted_adjacent (l : list (list byte)) :
  StronglySorted str_le l → Sorted str_le l.
Proof. apply StronglySorted_Sorted. Qed.

(** ** The calls that change nothing *)

Lemma q_sort_noop fuel w l :
  rep w l → qref w = None ∨ (length l ≤ 1)%nat → q_sort fuel w = Some w.
Proof.
  unfold rep, q_sort, q_sort_with. destruct w as [h [q|]]; simpl; [|done].
  intros (Hl & Ht & Hsz & _) [?|Hlen]; [done|].
  rewrite (merge_sort_short _ _ _ _ Hl Hlen). simpl.
  assert (tail_walk fuel h (tail q) = Some (tail q)) as ->.
  { destruct l as [|a [|b l]]; [| |simpl in Hlen; lia].
    - rewrite Ht. by destruct fuel.
    - rewrite Ht. destruct Hl as (_ & e & He & Hl). simpl in Hl.
      destruct fuel; simpl; rewrite He; simpl; by rewrite Hl. }
  simpl. by destruct q.
Qed.

Lemma q_reverse_noop fuel w l :
  rep w l → qref w = None ∨ l = [] → q_reverse fuel w = Some w.
Proof.
  unfold rep, q_reverse. destruct w as [h [q|]]; simpl; [|done].
  intros (Hl & Ht & Hsz & _) [?| ->]; [done|].
  simpl in *. rewrite Hl. destruct fuel; simpl; destruct q; simpl in *; by subst.
Qed.

(** ** The claims of the spec *)

(** C2.  After [q_sort] the strings read from head to tail are in
    ascending order of [strcmp] (each adjacent pair compares [<= 0]),
    they are the strings of the queue before, each as often as before,
    the number of elements is the same, and the call changes nothing
    when the queue pointer is [NULL] or the queue has no or one
    element. *)
Theorem q_sort_sorted fuel w vs :
  contents w vs → (length vs ≤ fuel)%nat →
  ∃ w' vs',
    q_sort fuel w = Some w' ∧ contents w' vs' ∧
    Sorted str_le vs' ∧ vs' ≡ₚ vs ∧
    length vs' = length vs ∧ q_size w' = q_size w ∧
    (qref w = None ∨ (length vs ≤ 1)%nat → w' = w).
Proof.
  intros (l & Hrep & ->) Hfuel. rewrite length_map in Hfuel.
  destruct (rep_sort_merge fuel w l Hrep Hfuel)
    as (w' & l' & Hrun & Hrep' & Hperm & Hsort & Hval & _ & Hsize).
  exists w', (map (payload (mem w')) l').
  assert (map (payload (mem w')) l' ≡ₚ map (payload (mem w)) l) as Hperm'.
  { rewrite (payloads_same_values _ _ _ Hval). by apply Permutation_map. }
  split_and!; [done|by exists l'| |done| |done|].
  - apply strongly_sorted_adjacent.
    rewrite (payloads_same_values _ _ _ Hval), payloads_vals.
    by apply sorted_c_str, sorted_by_vals.
  - by rewrite Hperm'.
  - intros Hnoop. rewrite length_map in Hnoop.
    pose proof (q_sort_noop fuel w l Hrep Hnoop) as Hrun'.
    unfold q_sort in Hrun'. congruence.
Qed.

(** C3.  [q_reverse] turns the order of the strings round: the new head
    is the old tail and the new tail the old head, every element keeps
    its value and only [next] fields change, no element is allocated or
    freed, and the call changes nothing when the queue pointer is
    [NULL] or the queue is empty. *)
Theorem q_reverse_reverses fuel w l :
  rep w l → (length l ≤ fuel)%nat →
  ∃ w',
    q_reverse fuel w = Some w' ∧ rep w' (reverse l) ∧
    map (payload (mem w')) (reverse l) = reverse (map (payload (mem w)) l) ∧
    (∀ q q', qref w = Some q → qref w' = Some q' →
             head q' = tail q ∧ tail q' = head q ∧ size q' = size q) ∧
    same_values (mem w) (mem w') ∧
    dom (mem w') = dom (mem w) ∧
    (∀ a, a ∉ l → mem w' !! a = mem w !! a) ∧
    (qref w = None ∨ l = [] → w' = w).
Proof.
  intros Hrep Hfuel.
  destruct (rep_reverse fuel w l Hrep Hfuel) as (w' & Hrun & Hrep' & Hval & Hfr & Hq).
  exists w'. split_and!; [done|done| |done|done| |done|].
  - rewrite (payloads_same_values _ _ _ Hval).
    by rewrite <- fmap_reverse.
  - by apply same_values_dom.
  - intros Hnoop. pose proof (q_reverse_noop fuel w l Hrep Hnoop). congruence.
Qed.

(** C8.  [q_reverse] twice gives back the state it started from: the
    same elements with the same values and links, the same head, tail
    and size. *)
Theorem q_reverse_involutive fuel w l :
  rep w l → (length l ≤ fuel)%nat →
  ∃ w1, q_reverse fuel w = Some w1 ∧ q_reverse fuel w1 = Some w.
Proof.
  intros Hrep Hfuel.
  destruct (qref w) as [q|] eqn:Hq.
  2: { exists w. split; by apply (q_reverse_noop fuel w l); auto. }
  destruct (rep_reverse fuel w l Hrep Hfuel) as (w1 & Hrun1 & Hrep1 & Hval1 & Hfr1 & Hq1).
  destruct (rep_reverse fuel w1 (reverse l) Hrep1) as (w2 & Hrun2 & Hrep2 & Hval2 & Hfr2 & Hq2).
  { by rewrite length_reverse. }
  rewrite reverse_involutive in Hrep2.
  exists w1. split; [done|]. rewrite Hrun2. f_equal.
  assert (∃ q1, qref w1 = Some q1) as [q1 Hw1].
  { unfold q_reverse in Hrun1. rewrite Hq in Hrun1.
    destruct (reverse_loop fuel (mem w) None (head q)) as [[h1 p1]|]; [|done].
    injection Hrun1 as <-. simpl. eauto. }
  assert (∃ q2, qref w2 = Some q2) as [q2 Hw2].
  { unfold q_reverse in Hrun2. rewrite Hw1 in Hrun2.
    destruct (reverse_loop fuel (mem w1) None (head q1)) as [[h2 p2]|]; [|done].
    injection Hrun2 as <-. simpl. eauto. }
  destruct (Hq1 q q1 Hq Hw1) as (E1 & E2 & E5).
  destruct (Hq2 q1 q2 Hw1 Hw2) as (E3 & E4 & E6).
  destruct w as [h qr], w2 as [h2 qr2]. simpl in *. subst qr qr2. f_equal.
  - apply heap_ext.
    + by eapply same_values_trans.
    + intros a. destruct (decide (a ∈ l)) as [Ha|Ha].
      * unfold rep in Hrep, Hrep2. simpl in *.
        destruct Hrep as (Hl & _), Hrep2 as (Hl2 & _).
        rewrite E3, E2 in Hl2. by eapply lseg_links_agree.
      * rewrite Hfr2, Hfr1; [done..|]. by rewrite elem_of_reverse.
  - destruct q, q2; simpl in *. f_equal. f_equal; congruence.
Qed.

(** C4.  The two sorts can stand for each other: [q_sort] with
    [quick_sort] and [q_sort] with [merge_sort] leave the same sequence
    of strings, read from head to tail. *)
Theorem sorts_agree fuel w l :
  rep w l → (length l ≤ fuel)%nat →
  ∃ wq wm vs,
    q_sort_with false fuel w = Some wq ∧ q_sort_with true fuel w = Some wm ∧
    contents wq vs ∧ contents wm vs.
Proof.
  intros Hrep Hfuel.
  destruct (rep_sort_quick fuel w l Hrep Hfuel)
    as (wq & Hrunq & Hrepq & (_ & _ & Hpermq & Hsortq) & _).
  destruct (rep_sort_merge fuel w l Hrep Hfuel)
    as (wm & l' & Hrunm & Hrepm & Hpermm & Hsortm & Hvalm & _ & _).
  exists wq, wm, (map (payload (mem wq)) l).
  split_and!; [done|done|by exists l|].
  exists l'. split; [done|].
  rewrite (payloads_same_values _ _ _ Hvalm), !payloads_vals.
  apply sorted_strings_unique.
  - by apply sorted_c_str.
  - by apply sorted_c_str, sorted_by_vals.
  - rewrite Hpermq. by rewrite Hpermm.
Qed.

(** C9.  Sorting a second time changes no string: [q_sort] after
    [q_sort] leaves the sequence of strings the first [q_sort] left. *)
Theorem q_sort_idempotent fuel w l :
  rep w l → (length l ≤ fuel)%nat →
  ∃ w1 w2 vs,
    q_sort fuel w = Some w1 ∧ q_sort fuel w1 = Some w2 ∧
    contents w1 vs ∧ contents w2 vs.
Proof.
  intros Hrep Hfuel.
  destruct (rep_sort_merge fuel w l Hrep Hfuel)
    as (w1 & l1 & Hrun1 & Hrep1 & Hperm1 & Hsort1 & Hval1 & _ & _).
  destruct (rep_sort_merge fuel w1 l1 Hrep1)
    as (w2 & l2 & Hrun2 & Hrep2 & Hperm2 & Hsort2 & Hval2 & _ & _).
  { by rewrite Hperm1. }
  exists w1, w2, (map (payload (mem w1)) l1).
  split_and!; [done|done|by exists l1|].
  exists l2. split; [done|].
  rewrite (payloads_same_values _ _ _ Hval2), !payloads_vals.
  apply sorted_strings_unique.
  - apply sorted_c_str. rewrite (vals_same (mem w) (mem w1)).
    + by apply sorted_by_vals.
    + intros c _. by apply same_values_val.
  - by apply sorted_c_str, sorted_by_vals.
  - by rewrite Hperm2.
Qed.

(** C5, as the code has it.  [q_remove_head] returns false, and
    changes neither the queue nor the buffer, exactly when the queue
    pointer is [NULL], the queue is empty or the buffer pointer is
    [NULL], whatever [bufsize] is.  In every other case it has a
    result exactly when [bufsize] is at least 1, and then it returns
    true: the head element is gone from the queue and from the heap,
    and the buffer holds the first [bufsize - 1] characters of its
    string (all of them, and [NUL]s after, when there are fewer) and a
    terminator at index [bufsize - 1]: a string that is too long is
    cut without an error, [hello] with a buffer of 3 bytes gives [he]
    and the call returns true. *)
Theorem q_remove_head_spec w l sp bufsize :
  rep w l →
  let guard := qref w = None ∨ l = [] ∨ sp = None in
  (is_Some (q_remove_head w sp bufsize) ↔ guard ∨ 1 <= bufsize) ∧
  (guard ∨ 1 <= bufsize →
   ∃ w' sp' r,
    q_remove_head w sp bufsize = Some (w', sp', r) ∧
    (r = false ↔ guard) ∧
    (r = false → w' = w ∧ sp' = sp) ∧
    (r = true →
       ∃ a buf out,
         l = a :: tl l ∧ sp = Some buf ∧ sp' = Some out ∧
         rep w' (tl l) ∧ mem w' = delete a (mem w) ∧
         q_size w' = q_size w - 1 ∧
         (∀ i, 0 <= i < size_sub bufsize 1 →
               out i = nth (Z.to_nat i) (payload (mem w) a) NUL) ∧
         out (size_sub bufsize 1) = NUL ∧
         (1 <= bufsize < size_mod →
            c_str (peek out (Z.to_nat bufsize)) =
              take (Z.to_nat (bufsize - 1)) (payload (mem w) a) ∧
            Z.of_nat (length (c_str (peek out (Z.to_nat bufsize)))) <= bufsize - 1 ∧
            out (bufsize - 1) = NUL) ∧
         (bufsize = 3 → payload (mem w) a = str "hello" →
            c_str (peek out 3) = str "he"))).
Proof.
  intros Hrep guard.
  assert (guard → q_remove_head w sp bufsize = Some (w, sp, false)) as Hguard.
  { intros [Hq|[->| ->]].
    - by apply q_remove_head_null.
    - by apply q_remove_head_rep_nil.
    - apply q_remove_head_no_buffer. }
  assert (guard ∨ ∃ a l' buf, l = a :: l' ∧ sp = Some buf ∧ ¬ guard) as Hcases.
  { unfold guard. destruct sp as [buf|]; [|by left; right; right].
    destruct l as [|a l]; [by left; right; left|].
    right. exists a, l, buf. split_and!; [done..|].
    destruct (rep_head_live _ _ _ Hrep) as (q & e & Hq & _).
    intros [Hn|[?|?]]; [|done..]. by rewrite Hq in Hn. }
  split.
  { split; [|intros [Hg|Hcap]].
    - intros Hsome. destruct Hcases as [Hg|(a & l' & buf & -> & -> & Hng)]; [by left|].
      right. destruct (Z.le_gt_cases 1 bufsize) as [|Hcap]; [done|]. exfalso.
      destruct (rep_head_live _ _ _ Hrep) as (q & e & Hq & Hh & He).
      rewrite (q_remove_head_overrun w q a e) in Hsome by (try done; lia).
      by destruct Hsome.
    - rewrite Hguard by done. by eexists.
    - destruct Hcases as [Hg|(a & l' & buf & -> & -> & Hng)].
      + rewrite Hguard by done. by eexists.
      + destruct (rep_remove_head w a l' buf bufsize Hrep Hcap) as (q' & -> & _).
        by eexists. }
  intros Hdef. destruct Hcases as [Hg|(a & l' & buf & -> & -> & Hng)].
  { exists w, sp, false. split_and!; [by apply Hguard|done|done|done]. }
  destruct Hdef as [Hg|Hcap]; [done|].
  destruct (rep_remove_head w a l' buf bufsize Hrep Hcap) as (q' & Hrun & Hrep').
  eexists _, _, true. split; [exact Hrun|].
  split_and!; [|done|].
  { split; [done|]. by intros Hg. }
  intros _.
  exists a, buf, (filled buf (val (mem w) a) bufsize).
  split_and!; [done..| | | | |].
  - rewrite (rep_size _ _ Hrep'), (rep_size _ _ Hrep). simpl. lia.
  - intros i Hi. by apply filled_below.
  - apply filled_at.
  - intros Hb. pose proof (filled_string buf (val (mem w) a) bufsize Hb) as Hout.
    split_and!.
    + done.
    + rewrite Hout, length_take. lia.
    + rewrite <- (size_sub_pos bufsize Hb). apply filled_at.
  - intros -> Hhello.
    assert (1 <= 3 < size_mod) as Hb by (pose proof size_mod_big; lia).
    pose proof (filled_string buf (val (mem w) a) 3 Hb) as Hout.
    change (Z.to_nat 3) with 3%nat in Hout. rewrite Hout.
    unfold payload in Hhello. by rewrite Hhello.
Qed.

(** C10.  [q_remove_head] has no test on [bufsize]: on a queue that is
    not empty and a buffer that is not [NULL] it never returns false.
    It copies [bufsize - 1] bytes as [size_t] computes it and puts the
    terminator at that index.  For [bufsize = 0] this number is
    [2 ^ size_bits - 1]: the writes leave the buffer and the call has
    no defined result.  From [bufsize = 1] on it is [bufsize - 1]: the
    call returns true, the buffer holds the first [bufsize - 1]
    characters of the string, then the terminator, and no offset from
    [bufsize] on is written. *)
Theorem q_remove_head_capacity w a l buf bufsize :
  rep w (a :: l) → 0 <= bufsize < size_mod →
  (∀ w' sp', q_remove_head w (Some buf) bufsize ≠ Some (w', sp', false)) ∧
  (is_Some (q_remove_head w (Some buf) bufsize) ↔ 1 <= bufsize) ∧
  (bufsize = 0 →
     size_sub bufsize 1 = 2 ^ size_bits - 1 ∧
     q_remove_head w (Some buf) bufsize = None) ∧
  (1 <= bufsize →
     size_sub bufsize 1 = bufsize - 1 ∧
     ∃ w' out,
       q_remove_head w (Some buf) bufsize = Some (w', Some out, true) ∧
       (∀ i, 0 <= i < bufsize - 1 →
             out i = nth (Z.to_nat i) (payload (mem w) a) NUL) ∧
       out (bufsize - 1) = NUL ∧
       (∀ i, i < 0 ∨ bufsize - 1 < i → out i = buf i)).
Proof.
  intros Hrep Hsize.
  destruct (rep_head_live _ _ _ Hrep) as (q & e & Hq & Hh & He).
  assert (bufsize = 0 → q_remove_head w (Some buf) bufsize = None) as Hzero.
  { intros ->. by apply (q_remove_head_overrun w q a e). }
  assert (1 <= bufsize →
          q_remove_head w (Some buf) bufsize
          = Some (World (delete a (mem w))
                        (Some (Queue (next e)
                                     (if to_int (size q - 1) =? 0 then None else tail q)
                                     (to_int (size q - 1)))),
                  Some (filled buf (value e) bufsize), true)) as Hpos.
  { intros Hcap. by apply q_remove_head_success. }
  split_and!.
  - intros w' sp' Hrun. destruct (Z.le_gt_cases 1 bufsize) as [Hcap|Hcap].
    + rewrite Hpos in Hrun by done. done.
    + rewrite Hzero in Hrun by lia. done.
  - split.
    + intros Hsome. destruct (Z.le_gt_cases 1 bufsize) as [|Hcap]; [done|].
      rewrite Hzero in Hsome by lia. by destruct Hsome.
    + intros Hcap. rewrite Hpos by done. by eexists.
  - intros Hb. split; [|by apply Hzero]. subst bufsize. apply size_sub_zero.
  - intros Hcap.
    assert (size_sub bufsize 1 = bufsize - 1) as Hn by (apply size_sub_pos; lia).
    split; [done|]. eexists _, _. split; [by apply Hpos|]. split_and!.
    + intros i Hi. unfold payload, val. rewrite He. apply filled_below. lia.
    + rewrite <- Hn. apply filled_at.
    + intros i Hi. apply filled_above. lia.
Qed.

(** C6.  An insertion that fails changes nothing.  [q_insert_head] and
    [q_insert_tail] return false when the queue pointer is [NULL], when
    the element cannot be allocated and when its buffer cannot be
    allocated, and in no other case; the state they leave is the state
    they found, so the element allocated before the buffer could not be
    is no longer live. *)
Theorem insert_failure_atomic ok_node ok_value w s :
  let failing := qref w = None ∨ ok_node = false ∨ ok_value = false in
  (failing → q_insert_head ok_node ok_value w s = Some (w, false)) ∧
  (failing → q_insert_tail ok_node ok_value w s = Some (w, false)) ∧
  (∀ w', q_insert_head ok_node ok_value w s = Some (w', false) → failing ∧ w' = w) ∧
  (∀ w', q_insert_tail ok_node ok_value w s = Some (w', false) → failing ∧ w' = w) ∧
  (∀ w' a,
     q_insert_head ok_node ok_value w s = Some (w', false) ∨
     q_insert_tail ok_node ok_value w s = Some (w', false) →
     malloc ok_node (mem w) = Some a → mem w' !! a = None).
Proof.
  intros failing.
  assert (failing → q_insert_head ok_node ok_value w s = Some (w, false)) as Hh.
  { intros [Hq|[->| ->]].
    - by apply q_insert_head_null.
    - apply q_insert_head_no_node.
    - destruct ok_node; [apply q_insert_head_no_value | apply q_insert_head_no_node]. }
  assert (failing → q_insert_tail ok_node ok_value w s = Some (w, false)) as Ht.
  { intros [Hq|[->| ->]].
    - by apply q_insert_tail_null.
    - apply q_insert_tail_no_node.
    - destruct ok_node; [apply q_insert_tail_no_value | apply q_insert_tail_no_node]. }
  assert (failing ∨ (∃ q, qref w = Some q) ∧ ok_node = true ∧ ok_value = true) as Hcases.
  { unfold failing. destruct (qref w) as [q|]; [|by left; left].
    destruct ok_node; [|by left; right; left].
    destruct ok_value; [|by left; right; right].
    right. eauto. }
  assert (∀ w', q_insert_head ok_node ok_value w s = Some (w', false) →
                failing ∧ w' = w) as Hh'.
  { intros w' Hrun. destruct Hcases as [Hf|([q Hq] & -> & ->)].
    - rewrite (Hh Hf) in Hrun. by injection Hrun as <-.
    - exfalso. unfold q_insert_head in Hrun. rewrite Hq in Hrun. simpl in Hrun.
      destruct (in_block _); simpl in Hrun; [|done].
      destruct (set_value _ _ _) as [h2|]; simpl in Hrun; [|done].
      destruct (set_next _ _ _) as [h3|]; simpl in Hrun; done. }
  assert (∀ w', q_insert_tail ok_node ok_value w s = Some (w', false) →
                failing ∧ w' = w) as Ht'.
  { intros w' Hrun. destruct Hcases as [Hf|([q Hq] & -> & ->)].
    - rewrite (Ht Hf) in Hrun. by injection Hrun as <-.
    - exfalso. unfold q_insert_tail in Hrun. rewrite Hq in Hrun. simpl in Hrun.
      destruct (set_next _ _ _) as [h2|]; simpl in Hrun; [|done].
      destruct (in_block _); simpl in Hrun; [|done].
      destruct (set_value _ _ _) as [h3|]; simpl in Hrun; [|done].
      destruct (tail q) as [t|]; simpl in Hrun; [|done].
      destruct (set_next _ _ _) as [h4|]; simpl in Hrun; done. }
  split_and!; [done..|].
  intros w' a Hrun Ha.
  assert (w' = w) as -> by (destruct Hrun as [Hrun|Hrun]; [by apply Hh'|by apply Ht']).
  destruct ok_node; simpl in Ha; [|done].
  injection Ha as <-. apply fresh_not_live.
Qed.

(** C7, as the code has it.  When both allocations succeed, the string
    with its terminator fits an [int], and the buffer has room for the
    string and its terminator, [q_insert_tail] on an empty queue
    followed by [q_remove_head] returns true twice, leaves the queue
    empty and the inserted string in the buffer. *)
Theorem insert_tail_remove_head_round_trip w q s buf bufsize :
  qref w = Some q → rep w [] → fits s → strlen s < bufsize < size_mod →
  ∃ w1 w2 out,
    q_insert_tail true true w s = Some (w1, true) ∧
    q_remove_head w1 (Some buf) bufsize = Some (w2, Some out, true) ∧
    c_str (peek out (Z.to_nat bufsize)) = c_str s ∧
    rep w2 [].
Proof.
  intros Hq Hrep Hs Hb.
  destruct (rep_insert_tail w q [] s Hrep Hq Hs) as (w1 & Hins & Hrep1 & Hval & _).
  { simpl. unfold INT_MAX. lia. }
  simpl in Hrep1.
  pose proof (strlen_nonneg s).
  destruct (rep_remove_head w1 _ [] buf bufsize Hrep1) as (q' & Hrun & Hrep2); [lia|].
  eexists _, _, _. split_and!; [done|done| |done].
  rewrite filled_string by lia. rewrite Hval, c_str_app_NUL.
  apply take_ge. unfold strlen in Hb. lia.
Qed.

(** ** Runs *)

Lemma delta_le_1 c r : delta c r <= 1.
Proof. destruct c, r as [[]|]; simpl; lia. Qed.

Lemma do_call_rep fuel c w l :
  rep w l → call_fits c →
  Z.of_nat (length l) < INT_MAX → (length l ≤ fuel)%nat →
  ∃ w' r l', do_call fuel c w = Some (w', r) ∧ rep w' l' ∧
             Z.of_nat (length l') = Z.of_nat (length l) + delta c r.
Proof.
  intros Hrep Hfits Hmax Hfuel.
  destruct c as [ok_node ok_value s|ok_node ok_value s|sp bufsize| |]; simpl.
  - destruct (qref w) as [q|] eqn:Hq.
    2: { rewrite q_insert_head_null by done. simpl. exists w, (Some false), l.
         split_and!; [done..|lia]. }
    destruct ok_node.
    2: { rewrite q_insert_head_no_node. simpl. exists w, (Some false), l.
         split_and!; [done..|lia]. }
    destruct ok_value.
    2: { rewrite q_insert_head_no_value. simpl. exists w, (Some false), l.
         split_and!; [done..|lia]. }
    destruct (rep_insert_head w q l s Hrep Hq Hfits Hmax) as (w' & Hrun & Hrep' & _).
    rewrite Hrun. simpl. eexists _, _, _. split_and!; [done..|].
    simpl. lia.
  - destruct (qref w) as [q|] eqn:Hq.
    2: { rewrite q_insert_tail_null by done. simpl. exists w, (Some false), l.
         split_and!; [done..|lia]. }
    destruct ok_node.
    2: { rewrite q_insert_tail_no_node. simpl. exists w, (Some false), l.
         split_and!; [done..|lia]. }
    destruct ok_value.
    2: { rewrite q_insert_tail_no_value. simpl. exists w, (Some false), l.
         split_and!; [done..|lia]. }
    destruct (rep_insert_tail w q l s Hrep Hq Hfits Hmax) as (w' & Hrun & Hrep' & _).
    rewrite Hrun. simpl. eexists _, _, _. split_and!; [done..|].
    rewrite length_app. simpl. lia.
  - destruct sp as [buf|].
    2: { rewrite q_remove_head_no_buffer. simpl. exists w, (Some false), l.
         split_and!; [done..|lia]. }
    destruct l as [|a l].
    { rewrite q_remove_head_rep_nil by done. simpl. exists w, (Some false), [].
      split_and!; [done..|simpl; lia]. }
    destruct (rep_remove_head w a l buf bufsize Hrep Hfits) as (q' & Hrun & Hrep').
    rewrite Hrun. simpl. eexists _, _, _. split_and!; [done..|].
    simpl. lia.
  - destruct (rep_reverse fuel w l Hrep Hfuel) as (w' & Hrun & Hrep' & _).
    rewrite Hrun. simpl. eexists _, _, _. split_and!; [done..|].
    rewrite length_reverse. lia.
  - destruct (rep_sort_merge fuel w l Hrep Hfuel) as (w' & l' & Hrun & Hrep' & Hperm & _).
    unfold q_sort. rewrite Hrun. simpl. eexists _, _, _. split_and!; [done..|].
    rewrite Hperm. lia.
Qed.

Lemma final_cons w w1 r t : final w ((w1, r) :: t) = final w1 t.
Proof.
  unfold final. destruct t as [|[w2 r2] t]; [done|].
  rewrite !fmap_cons, last_cons_cons. simpl.
  destruct (last (w2 :: (fst <$> t))) eqn:E; [done|]. by apply last_None in E.
Qed.

Lemma run_rep fuel cs w l :
  rep w l → Forall call_fits cs →
  Z.of_nat (length l) + Z.of_nat (length cs) <= INT_MAX →
  (length l + length cs ≤ fuel)%nat →
  ∃ t, run fuel cs w = Some t ∧
       Forall (λ wr, ∃ l', rep wr.1 l') t ∧
       q_size (final w t) = q_size w + deltas cs t.
Proof.
  revert w l. induction cs as [|c cs IH]; intros w l Hrep Hfits Hmax Hfuel.
  { exists []. simpl. split_and!; [done|constructor|]. unfold final. simpl. lia. }
  apply Forall_cons in Hfits as [Hc Hfits]. simpl in Hmax, Hfuel.
  destruct (do_call_rep fuel c w l Hrep Hc) as (w1 & r & l1 & Hrun & Hrep1 & Hlen);
    [lia..|].
  pose proof (delta_le_1 c r) as Hd.
  destruct (IH w1 l1 Hrep1 Hfits) as (t & Hrun' & Hall & Hsize); [lia..|].
  exists ((w1, r) :: t). simpl. rewrite Hrun. simpl. rewrite Hrun'. simpl.
  split_and!; [done| |].
  - constructor; [by exists l1 | done].
  - rewrite final_cons, Hsize.
    rewrite (rep_size _ _ Hrep1), (rep_size _ _ Hrep). lia.
Qed.

(** C1, as the code has it.  Start from a queue [q_new] has just made
    (or from the [NULL] it returns when it fails) and make any sequence
    of calls of [q_insert_head], [q_insert_tail], [q_remove_head],
    [q_reverse] and [q_sort], whatever the allocations, with strings
    whose length fits an [int], a [bufsize] of at least 1 in every
    call of [q_remove_head], and fewer than [2^31] calls in all.
    Every call has a result, and after every call: [size] is
    zero exactly when [head] is [NULL] and exactly when [tail] is
    [NULL]; if the queue is not empty, [size - 1] links from [head]
    lead to [tail]; the [next] of [tail] is [NULL]; [size] links from
    [head] lead out of the list, so there is no cycle.  At the end
    [size] is the number of insertions that returned true minus the
    number of removals that returned true. *)
Theorem run_keeps_invariants ok fuel cs :
  Forall call_fits cs →
  Z.of_nat (length cs) <= INT_MAX → (length cs ≤ fuel)%nat →
  ∃ t, run fuel cs (q_new ok) = Some t ∧
       Forall (λ wr, invariants wr.1) t ∧
       q_size (final (q_new ok) t) = deltas cs t.
Proof.
  intros Hfits Hmax Hfuel.
  destruct (run_rep fuel cs (q_new ok) [] (rep_new ok) Hfits) as (t & Hrun & Hall & Hsize);
    [simpl; lia..|].
  exists t. split_and!; [done| |].
  - eapply Forall_impl; [exact Hall|]. intros [w r] [l Hl]. by eapply rep_invariants.
  - rewrite Hsize. by destruct ok.
Qed.

(** ** More on the representation *)

Lemma rep_fresh w l : rep w l → fresh (dom (mem w)) ∉ l.
Proof.
  unfold rep. destruct (qref w) as [q|].
  - intros (Hl & _). eapply lseg_not_live; [done|]. apply fresh_not_live.
  - intros ->. apply not_elem_of_nil.
Qed.

Lemma rep_NoDup w l : rep w l → NoDup l.
Proof.
  unfold rep. destruct (qref w) as [q|].
  - intros (Hl & _). by eapply lseg_NoDup.
  - intros ->. constructor.
Qed.

Lemma rep_tail_in w q l t : rep w l → qref w = Some q → tail q = Some t → t ∈ l.
Proof.
  unfold rep. intros Hrep Hq Ht. rewrite Hq in Hrep.
  destruct Hrep as (_ & Hlast & _). rewrite Hlast in Ht.
  apply last_Some in Ht as [l' ->]. apply elem_of_app. right. by left.
Qed.

Lemma rep_tail_live w q l t :
  rep w l → qref w = Some q → tail q = Some t → is_Some (mem w !! t).
Proof.
  intros Hrep Hq Ht. pose proof (rep_tail_in _ _ _ _ Hrep Hq Ht) as Hin.
  unfold rep in Hrep. rewrite Hq in Hrep. destruct Hrep as (Hl & _).
  by eapply lseg_live.
Qed.

Lemma rep_size_range w q l :
  rep w l → qref w = Some q → Z.of_nat (length l) < INT_MAX → 0 <= size q < INT_MAX.
Proof.
  unfold rep. intros Hrep Hq Hlen. rewrite Hq in Hrep.
  destruct Hrep as (_ & _ & -> & _). lia.
Qed.

(** ** More on the insertions and the removal *)

Lemma payloads_keep h h' (l : list addr) :
  (∀ a, a ∈ l → val h' a = val h a) →
  map (payload h') l = map (payload h) l.
Proof.
  intros H. apply map_ext_in. intros a Ha%list_elem_of_In.
  unfold payload. by rewrite H.
Qed.

Lemma contents_insert_head w q vs s :
  contents w vs → qref w = Some q → fits s → Z.of_nat (length vs) < INT_MAX →
  ∃ w', q_insert_head true true w s = Some (w', true) ∧ is_Some (qref w') ∧
        contents w' (c_str s :: vs).
Proof.
  intros (l & Hrep & ->) Hq Hs Hlen. rewrite length_map in Hlen.
  destruct (rep_insert_head w q l s Hrep Hq Hs Hlen) as (w' & Hrun & Hrep' & Hval & Hfr).
  exists w'. split_and!; [done| |].
  - rewrite (q_insert_head_success w q s) in Hrun by eauto using rep_size_range.
    injection Hrun as <-. by eexists.
  - eexists. split; [exact Hrep'|]. simpl. f_equal.
    + unfold payload. rewrite Hval. by rewrite (c_str_app_NUL s []).
    + symmetry. apply payloads_keep. intros a Ha. unfold val. by rewrite Hfr.
Qed.

Lemma contents_insert_tail w q vs s :
  contents w vs → qref w = Some q → fits s → Z.of_nat (length vs) < INT_MAX →
  ∃ w', q_insert_tail true true w s = Some (w', true) ∧ is_Some (qref w') ∧
        contents w' (vs ++ [c_str s]).
Proof.
  intros (l & Hrep & ->) Hq Hs Hlen. rewrite length_map in Hlen.
  destruct (rep_insert_tail w q l s Hrep Hq Hs Hlen) as (w' & Hrun & Hrep' & Hval & Hfr).
  exists w'. split_and!; [done| |].
  - rewrite (q_insert_tail_success w q s) in Hrun
      by eauto using rep_size_range, rep_tail_live.
    injection Hrun as <-. by eexists.
  - eexists. split; [exact Hrep'|]. rewrite map_app. simpl. f_equal.
    + symmetry. by apply payloads_keep.
    + unfold payload. rewrite Hval. by rewrite (c_str_app_NUL s []).
Qed.

Lemma contents_remove_head w v vs buf bufsize :
  contents w (v :: vs) → 1 <= bufsize →
  ∃ w' out, q_remove_head w (Some buf) bufsize = Some (w', Some out, true) ∧
            is_Some (qref w') ∧ contents w' vs.
Proof.
  intros (l & Hrep & Hvs) Hcap. destruct l as [|a l]; [done|].
  simpl in Hvs. injection Hvs as -> ->.
  destruct (rep_remove_head w a l buf bufsize Hrep Hcap) as (q' & Hrun & Hrep').
  pose proof (rep_NoDup _ _ Hrep) as [Ha _]%NoDup_cons.
  eexists _, _. split_and!; [done|by eexists|].
  eexists. split; [exact Hrep'|]. simpl. symmetry. apply payloads_keep.
  intros b Hb. unfold val. rewrite lookup_delete_ne; [done|]. by intros <-.
Qed.

(** [q_insert_head] puts the string before the others: a queue that
    reads [vs] reads [c_str s :: vs] after it, the new element is the
    head, and a tail there was stays the tail. *)
Theorem q_insert_head_prepends w q vs s :
  contents w vs → qref w = Some q → fits s → Z.of_nat (length vs) < INT_MAX →
  ∃ w' q',
    q_insert_head true true w s = Some (w', true) ∧ qref w' = Some q' ∧
    contents w' (c_str s :: vs) ∧
    head q' = Some (fresh (dom (mem w))) ∧
    (tail q ≠ None → tail q' = tail q) ∧
    size q' = size q + 1.
Proof.
  intros Hc Hq Hs Hlen.
  destruct (contents_insert_head w q vs s Hc Hq Hs Hlen) as (w' & Hrun & _ & Hc').
  destruct Hc as (l & Hrep & ->). rewrite length_map in Hlen.
  pose proof Hrun as Hrun'.
  rewrite (q_insert_head_success w q s) in Hrun' by eauto using rep_size_range.
  injection Hrun' as <-. eexists _, _. split_and!; [done..| |done].
  simpl. by destruct (tail q).
Qed.

(** [q_insert_tail] puts the string after the others: a queue that
    reads [vs] reads [vs ++ [c_str s]] after it, the new element is the
    tail, and a head there was stays the head. *)
Theorem q_insert_tail_appends w q vs s :
  contents w vs → qref w = Some q → fits s → Z.of_nat (length vs) < INT_MAX →
  ∃ w' q',
    q_insert_tail true true w s = Some (w', true) ∧ qref w' = Some q' ∧
    contents w' (vs ++ [c_str s]) ∧
    tail q' = Some (fresh (dom (mem w))) ∧
    (head q ≠ None → head q' = head q) ∧
    size q' = size q + 1.
Proof.
  intros Hc Hq Hs Hlen.
  destruct (contents_insert_tail w q vs s Hc Hq Hs Hlen) as (w' & Hrun & _ & Hc').
  destruct Hc as (l & Hrep & ->). rewrite length_map in Hlen.
  pose proof Hrun as Hrun'.
  rewrite (q_insert_tail_success w q s) in Hrun'
    by eauto using rep_size_range, rep_tail_live.
  injection Hrun' as <-. eexists _, _. split_and!; [done..| |done].
  simpl. intros Hh. destruct (tail q) as [t|] eqn:E; [done|].
  unfold rep in Hrep. rewrite Hq in Hrep. destruct Hrep as (Hl & Ht & _).
  rewrite E in Ht. symmetry in Ht. apply last_None in Ht. by subst l.
Qed.

(** [q_insert_head] and then [q_remove_head] with a buffer of at least
    one byte give back the state they started from, and a buffer that
    is longer than the string receives what was inserted. *)
Theorem insert_head_remove_head_restores w q l s buf bufsize :
  rep w l → qref w = Some q → fits s → Z.of_nat (length l) < INT_MAX →
  1 <= bufsize →
  ∃ w1 out,
    q_insert_head true true w s = Some (w1, true) ∧
    q_remove_head w1 (Some buf) bufsize = Some (w, Some out, true) ∧
    (strlen s < bufsize < size_mod → c_str (peek out (Z.to_nat bufsize)) = c_str s).
Proof.
  intros Hrep Hq Hs Hlen Hcap.
  pose proof Hrep as Hrep0. unfold rep in Hrep0. rewrite Hq in Hrep0.
  destruct Hrep0 as (Hl & Ht & Hsz & _).
  rewrite (q_insert_head_success w q s) by (try done; lia).
  eexists _, _. split; [done|].
  erewrite q_remove_head_success; [|done|done|apply lookup_insert_eq|done].
  simpl. split.
  - do 3 f_equal. destruct w as [h qr]. simpl in *. subst qr. f_equal.
    + apply delete_insert_id, fresh_not_live.
    + replace (size q + 1 - 1) with (size q) by lia.
      rewrite to_int_small by (unfold INT_MAX in *; lia).
      destruct q as [hd tl sz]. simpl in *. do 2 f_equal.
      destruct (sz =? 0) eqn:E.
      * apply Z.eqb_eq in E. destruct l; [done | simpl in *; lia].
      * apply Z.eqb_neq in E. destruct tl; [done|].
        symmetry in Ht. apply last_None in Ht. subst l. simpl in *. lia.
  - intros Hb. pose proof (strlen_nonneg s).
    rewrite filled_string by lia. rewrite c_str_app_NUL.
    apply take_ge. unfold strlen in Hb. lia.
Qed.

(** ** What the functions leave alone *)

Lemma do_call_outside fuel c w l F :
  rep w l → outside w l F → call_fits c →
  Z.of_nat (length l) < INT_MAX → (length l ≤ fuel)%nat →
  ∃ w' r l', do_call fuel c w = Some (w', r) ∧ rep w' l' ∧ outside w' l' F ∧
             (length l' ≤ S (length l))%nat.
Proof.
  intros Hrep Hout Hfits Hmax Hfuel. pose proof Hout as [HF Hm].
  pose proof (rep_fresh _ _ Hrep) as Hfresh.
  destruct c as [ok_node ok_value s|ok_node ok_value s|sp bufsize| |]; simpl.
  - destruct (qref w) as [q|] eqn:Hq.
    2: { rewrite q_insert_head_null by done. simpl. exists w, (Some false), l.
         split_and!; [done..|lia]. }
    destruct ok_node.
    2: { rewrite q_insert_head_no_node. simpl. exists w, (Some false), l.
         split_and!; [done..|lia]. }
    destruct ok_value.
    2: { rewrite q_insert_head_no_value. simpl. exists w, (Some false), l.
         split_and!; [done..|lia]. }
    destruct (rep_insert_head w q l s Hrep Hq Hfits Hmax) as (w' & Hrun & Hrep' & _).
    rewrite Hrun. simpl. eexists _, _, _. split_and!; [done|done| |simpl; lia].
    rewrite (q_insert_head_success w q s) in Hrun
      by eauto using rep_size_range.
    injection Hrun as <-. split.
    + intros a [->|Ha]%elem_of_cons; [|by apply HF].
      rewrite <- Hm by done. apply fresh_not_live.
    + intros a [Hne Ha]%not_elem_of_cons. simpl.
      rewrite lookup_insert_ne by done. by apply Hm.
  - destruct (qref w) as [q|] eqn:Hq.
    2: { rewrite q_insert_tail_null by done. simpl. exists w, (Some false), l.
         split_and!; [done..|lia]. }
    destruct ok_node.
    2: { rewrite q_insert_tail_no_node. simpl. exists w, (Some false), l.
         split_and!; [done..|lia]. }
    destruct ok_value.
    2: { rewrite q_insert_tail_no_value. simpl. exists w, (Some false), l.
         split_and!; [done..|lia]. }
    destruct (rep_insert_tail w q l s Hrep Hq Hfits Hmax) as (w' & Hrun & Hrep' & _).
    rewrite Hrun. simpl. eexists _, _, _.
    split_and!; [done|done| |rewrite length_app; simpl; lia].
    rewrite (q_insert_tail_success w q s) in Hrun
      by eauto using rep_size_range, rep_tail_live.
    injection Hrun as <-. split.
    + intros a [Ha|Ha]%elem_of_app; [by apply HF|].
      apply list_elem_of_singleton in Ha as ->.
      rewrite <- Hm by done. apply fresh_not_live.
    + intros a [Ha Hne%not_elem_of_cons]%not_elem_of_app. destruct Hne as [Hne _].
      simpl. unfold linked_at_tail. destruct (tail q) as [t|] eqn:Et.
      * rewrite lookup_insert_ne.
        2: { intros <-. by eapply Ha, rep_tail_in. }
        rewrite lookup_insert_ne by done. by apply Hm.
      * rewrite lookup_insert_ne by done. by apply Hm.
  - destruct sp as [buf|].
    2: { rewrite q_remove_head_no_buffer. simpl. exists w, (Some false), l.
         split_and!; [done..|lia]. }
    destruct l as [|a l].
    { rewrite q_remove_head_rep_nil by done. simpl. exists w, (Some false), [].
      split_and!; [done..|simpl; lia]. }
    destruct (rep_remove_head w a l buf bufsize Hrep Hfits) as (q' & Hrun & Hrep').
    rewrite Hrun. simpl. eexists _, _, _. split_and!; [done|done| |simpl; lia].
    split.
    + intros b Hb. apply HF. by right.
    + intros b Hb. simpl. destruct (decide (b = a)) as [->|Hne].
      * rewrite lookup_delete_eq. symmetry. apply HF. by left.
      * rewrite lookup_delete_ne by done. apply Hm.
        intros [->|?]%elem_of_cons; done.
  - destruct (rep_reverse fuel w l Hrep Hfuel) as (w' & Hrun & Hrep' & _ & Hfr & _).
    rewrite Hrun. simpl. eexists _, _, _.
    split_and!; [done|done| |rewrite length_reverse; lia].
    split.
    + intros a Ha. rewrite elem_of_reverse in Ha. by apply HF.
    + intros a Ha. rewrite elem_of_reverse in Ha. rewrite Hfr by done. by apply Hm.
  - destruct (rep_sort_merge fuel w l Hrep Hfuel)
      as (w' & l' & Hrun & Hrep' & Hperm & _ & _ & Hfr & _).
    unfold q_sort. rewrite Hrun. simpl. eexists _, _, _.
    split_and!; [done|done| |rewrite Hperm; lia].
    split.
    + intros a Ha. rewrite Hperm in Ha. by apply HF.
    + intros a Ha. rewrite Hperm in Ha. rewrite Hfr by done. by apply Hm.
Qed.

Lemma run_outside fuel cs w l F :
  rep w l → outside w l F → Forall call_fits cs →
  Z.of_nat (length l) + Z.of_nat (length cs) <= INT_MAX →
  (length l + length cs ≤ fuel)%nat →
  ∃ t l', run fuel cs w = Some t ∧
          Forall (λ wr, ∃ l1, rep wr.1 l1 ∧ outside wr.1 l1 F) t ∧
          rep (final w t) l' ∧ outside (final w t) l' F ∧
          (length l' ≤ length l + length cs)%nat.
Proof.
  revert w l. induction cs as [|c cs IH]; intros w l Hrep Hout Hfits Hmax Hfuel.
  { exists [], l. simpl. split_and!; [done|constructor|done|done|lia]. }
  apply Forall_cons in Hfits as [Hc Hfits]. simpl in Hmax, Hfuel.
  destruct (do_call_outside fuel c w l F Hrep Hout Hc)
    as (w1 & r & l1 & Hrun & Hrep1 & Hout1 & Hlen); [lia..|].
  destruct (IH w1 l1 Hrep1 Hout1 Hfits) as (t & l' & Hrun' & Hall & Hrep' & Hout' & Hlen');
    [lia..|].
  exists ((w1, r) :: t), l'. simpl. rewrite Hrun. simpl. rewrite Hrun'. simpl.
  rewrite final_cons. split_and!; [done| |done|done|lia].
  constructor; [by exists l1 | done].
Qed.

(** Whatever is called and in whatever order (with strings that fit
    an [int] and a [bufsize] of at least 1), the functions allocate,
    free and write list elements of the queue only: if the list
    elements in the heap apart from those of the queue are [F], they
    are so after every call, and a [q_free] at the end frees every
    element of the queue and leaves exactly [F].  No list element is
    leaked and no other one is changed.  A string is held in its
    element here and the queue record is not in the heap: the
    statement is about the [list_ele_t] blocks, not about the blocks
    of the strings or of the record. *)
Theorem run_then_free_restores fuel cs w l F :
  rep w l → outside w l F → Forall call_fits cs →
  Z.of_nat (length l) + Z.of_nat (length cs) <= INT_MAX →
  (length l + length cs ≤ fuel)%nat →
  ∃ t, run fuel cs w = Some t ∧
       Forall (λ wr, ∃ l1, rep wr.1 l1 ∧ outside wr.1 l1 F) t ∧
       q_free fuel (final w t) = Some F.
Proof.
  intros Hrep Hout Hfits Hmax Hfuel.
  destruct (run_outside fuel cs w l F Hrep Hout Hfits Hmax Hfuel)
    as (t & l' & Hrun & Hall & Hrep' & [HF Hm] & Hlen).
  exists t. split_and!; [done|done|].
  destruct (q_free_spec fuel (final w t) l' Hrep') as (h' & Hfree & Hin & Hnot); [lia|].
  rewrite Hfree. f_equal. apply map_eq. intros a.
  destruct (decide (a ∈ l')) as [Ha|Ha].
  - by rewrite Hin, HF.
  - by rewrite Hnot, Hm.
Qed.

(** A [NULL] queue takes every call and ignores it: the insertions
    and the removal return false, [q_reverse] and [q_sort] return, the
    heap is never touched, [q_size] is zero and [q_free] frees
    nothing. *)
Theorem null_queue_ignores_calls fuel cs h :
  run fuel cs (World h None) = Some ((λ c, (World h None, null_result c)) <$> cs) ∧
  q_size (World h None) = 0 ∧
  q_free fuel (World h None) = Some h.
Proof.
  split; [|done].
  induction cs as [|c cs IH]; [done|].
  rewrite fmap_cons. simpl.
  assert (do_call fuel c (World h None) = Some (World h None, null_result c)) as ->.
  { destruct c as [ok_node ok_value s|ok_node ok_value s|sp bufsize| |];
      unfold do_call.
    - by rewrite q_insert_head_null.
    - by rewrite q_insert_tail_null.
    - by rewrite q_remove_head_null.
    - by rewrite (q_reverse_noop fuel _ []); [|done|left].
    - by rewrite (q_sort_noop fuel _ []); [|done|left]. }
  simpl. by rewrite IH.
Qed.

(** ** The queue and the list of its strings *)

Lemma str_le_total : Total str_le.
Proof.
  intros a b. unfold str_le. rewrite (strcmp_swap a b). lia.
Qed.

Lemma str_le_transitive : Transitive str_le.
Proof. intros a b c. apply str_le_trans. Qed.

Lemma sorted_strings_sorted vs : StronglySorted str_le (sorted_strings vs).
Proof.
  apply (@StronglySorted_merge_sort _ str_le _ str_le_transitive str_le_total).
Qed.

Lemma sorted_strings_perm vs : sorted_strings vs ≡ₚ vs.
Proof. apply merge_sort_Permutation. Qed.

Lemma map_fixed {A} (f : A → A) (l : list A) :
  Forall (λ x, f x = x) l → map f l = l.
Proof. induction 1; simpl; congruence. Qed.

(** Any sorted arrangement of a list of strings is the one the sort
    of the model gives. *)
Lemma sorted_vals (v1 v2 : list (list byte)) :
  v1 ≡ₚ v2 → StronglySorted str_le v1 →
  map c_str v1 = sorted_strings (map c_str v2).
Proof.
  intros Hperm Hsorted.
  assert (map c_str (sorted_strings (map c_str v2)) = sorted_strings (map c_str v2))
    as Hfix.
  { apply map_fixed. rewrite sorted_strings_perm.
    apply Forall_forall. intros x (a & -> & _)%list_elem_of_fmap. apply c_str_idem. }
  rewrite <- Hfix. apply sorted_strings_unique.
  - by apply sorted_c_str.
  - rewrite Hfix. apply sorted_strings_sorted.
  - rewrite Hfix, sorted_strings_perm. by rewrite Hperm.
Qed.

Lemma sorted_payloads h (l l' : list addr) :
  l' ≡ₚ l → StronglySorted (le_by (val h)) l' →
  map (payload h) l' = sorted_strings (map (payload h) l).
Proof.
  intros Hperm Hsorted. rewrite !payloads_vals. apply sorted_vals.
  - by rewrite Hperm.
  - by apply sorted_by_vals.
Qed.

Lemma q_reverse_qref fuel w w' :
  q_reverse fuel w = Some w' → is_Some (qref w) → is_Some (qref w').
Proof.
  unfold q_reverse. intros Hrun [q Hq]. rewrite Hq in Hrun.
  destruct (reverse_loop _ _ _ _) as [[h1 p]|]; [|done].
  injection Hrun as <-. by eexists.
Qed.

Lemma q_sort_with_qref use_merge fuel w w' :
  q_sort_with use_merge fuel w = Some w' → is_Some (qref w) → is_Some (qref w').
Proof.
  unfold q_sort_with. intros Hrun [q Hq]. rewrite Hq in Hrun.
  destruct (if use_merge then _ else _) as [[h1 q1]|]; [|done]. simpl in Hrun.
  destruct (tail_walk _ _ _); [|done].
  injection Hrun as <-. by eexists.
Qed.

Lemma contents_nil w : contents w [] → rep w [].
Proof. intros ([|a l] & Hrep & Hvs); done. Qed.

Lemma do_call_lists fuel c w vs :
  contents w vs → is_Some (qref w) → call_fits c →
  Z.of_nat (length vs) < INT_MAX → (length vs ≤ fuel)%nat →
  ∃ w', do_call fuel c w = Some (w', list_result c vs) ∧ is_Some (qref w') ∧
        contents w' (list_call c vs) ∧
        (length (list_call c vs) ≤ S (length vs))%nat.
Proof.
  intros Hc [q Hq] Hfits Hmax Hfuel.
  destruct c as [ok_node ok_value s|ok_node ok_value s|sp bufsize| |];
    unfold do_call.
  - destruct ok_node.
    2: { rewrite q_insert_head_no_node. exists w. simpl. split_and!; eauto. }
    destruct ok_value.
    2: { rewrite q_insert_head_no_value. exists w. simpl. split_and!; eauto. }
    destruct (contents_insert_head w q vs s Hc Hq Hfits Hmax) as (w' & Hrun & Hq' & Hc').
    rewrite Hrun. exists w'. simpl. split_and!; [done..|lia].
  - destruct ok_node.
    2: { rewrite q_insert_tail_no_node. exists w. simpl. split_and!; eauto. }
    destruct ok_value.
    2: { rewrite q_insert_tail_no_value. exists w. simpl. split_and!; eauto. }
    destruct (contents_insert_tail w q vs s Hc Hq Hfits Hmax) as (w' & Hrun & Hq' & Hc').
    rewrite Hrun. exists w'. simpl. split_and!; [done..|].
    rewrite length_app. simpl. lia.
  - destruct sp as [buf|].
    2: { rewrite q_remove_head_no_buffer. exists w. simpl. split_and!; eauto. }
    destruct vs as [|v vs].
    { rewrite q_remove_head_rep_nil by by apply contents_nil.
      exists w. simpl. split_and!; eauto. }
    destruct (contents_remove_head w v vs buf bufsize Hc Hfits)
      as (w' & out & Hrun & Hq' & Hc').
    rewrite Hrun. exists w'. simpl. rewrite drop_0. split_and!; [done..|lia].
  - destruct Hc as (l & Hrep & ->). rewrite length_map in Hfuel.
    destruct (rep_reverse fuel w l Hrep Hfuel) as (w' & Hrun & Hrep' & Hsame & _).
    rewrite Hrun. exists w'. simpl. split_and!; [done| | |].
    + eapply q_reverse_qref; eauto.
    + eexists. split; [exact Hrep'|].
      rewrite (payloads_same_values _ _ _ Hsame). by rewrite <- !fmap_reverse.
    + rewrite length_reverse. lia.
  - destruct Hc as (l & Hrep & ->). rewrite length_map in Hfuel.
    destruct (rep_sort_merge fuel w l Hrep Hfuel)
      as (w' & l' & Hrun & Hrep' & Hperm & Hsorted & Hsame & _).
    unfold q_sort. rewrite Hrun. exists w'. simpl. split_and!; [done| | |].
    + eapply q_sort_with_qref; eauto.
    + eexists. split; [exact Hrep'|].
      rewrite (payloads_same_values _ _ _ Hsame). symmetry. by apply sorted_payloads.
    + rewrite sorted_strings_perm. lia.
Qed.

(** The queue behaves as the list of its strings.  Make any sequence
    of calls on a queue that is not [NULL] and reads [vs], whatever the
    allocations, with strings that fit an [int] and a [bufsize] of at
    least 1 in every call of [q_remove_head]: every call returns what
    the list model says (an insertion true exactly when both
    allocations succeed, a removal true exactly when there are a
    buffer and a string to take), and at the end the queue reads what
    the list model gives: [q_insert_head] puts a string in front,
    [q_insert_tail] at the end, [q_remove_head] drops the first,
    [q_reverse] reverses the list and [q_sort] sorts it. *)
Theorem run_refines_lists fuel cs w vs :
  contents w vs → is_Some (qref w) → Forall call_fits cs →
  Z.of_nat (length vs) + Z.of_nat (length cs) <= INT_MAX →
  (length vs + length cs ≤ fuel)%nat →
  ∃ t, run fuel cs w = Some t ∧
       t.*2 = list_results cs vs ∧
       contents (final w t) (list_run cs vs).
Proof.
  revert w vs. induction cs as [|c cs IH]; intros w vs Hc Hq Hfits Hmax Hfuel.
  { exists []. by split_and!. }
  apply Forall_cons in Hfits as [Hfit Hfits]. simpl in Hmax, Hfuel.
  destruct (do_call_lists fuel c w vs Hc Hq Hfit) as (w1 & Hrun & Hq1 & Hc1 & Hlen);
    [lia..|].
  destruct (IH w1 (list_call c vs) Hc1 Hq1 Hfits) as (t & Hrun' & Hres & Hfin);
    [lia..|].
  exists ((w1, list_result c vs) :: t). simpl. rewrite Hrun. simpl. rewrite Hrun'.
  simpl. rewrite final_cons. split_and!; [done| |done].
  f_equal. exact Hres.
Qed.

(** ** The two sorts, again *)

Lemma merge_sort_unfold fuel h a :
  merge_sort (S fuel) h (Some a) =
    e ← h !! a;
    match next e with
    | None => Some (h, Some a)
    | Some _ =>
        left ← find_half fuel h (Some a) (next e);
        la ← left;
        le ← h !! la;
        h1 ← set_next h la None;
        '(h2, p2) ← merge_sort fuel h1 (Some a);
        '(h3, right3) ← merge_sort fuel h2 (next le);
        merge_loop fuel h3 p2 Root p2 right3
    end.
Proof. reflexivity. Qed.

(** [quick_sort (first, last)] sorts a range of a list where it is:
    whatever comes before [first] and after [last] in the list, the
    elements of the range get the strings of the range in ascending
    order, no [next] is changed, so that the list runs through the
    same elements as before, and nothing outside the range is
    touched. *)
Theorem quick_sort_sorts_in_place fuel h p pre r post f la :
  lseg h p (pre ++ r ++ post) None →
  hd_error r = Some f → last r = Some la → (length r ≤ fuel)%nat →
  ∃ h', quick_sort fuel h (Some f) (Some la) = Some h' ∧
        lseg h' p (pre ++ r ++ post) None ∧ same_links h h' ∧
        (∀ c, c ∉ r → h' !! c = h !! c) ∧
        map (payload h') r = sorted_strings (map (payload h) r).
Proof.
  intros Hl Hhd Hlast Hfuel. apply last_Some in Hlast as [s ->].
  pose proof Hl as (m & Hpre & Hr)%lseg_app.
  assert (m = Some f) as ->.
  { rewrite (lseg_hd _ _ _ _ Hr). destruct s; simpl in *; congruence. }
  destruct (quick_sort_spec fuel h f s la post Hr Hfuel)
    as (h' & Hrun & Hlk & Hfr & Hperm & Hsorted).
  exists h'. split_and!; [done| |done|done|].
  - by eapply lseg_same_links.
  - rewrite !payloads_vals. by apply sorted_vals.
Qed.

(** The merge of [merge_sort] takes from the right half unless the
    string on the left is smaller: of two elements the second of which
    is not greater than the first, [q_sort] puts the second first.
    Two elements with the same string change places, that is, the sort
    is not stable. *)
Theorem q_sort_swaps_equal_pair fuel w a b :
  rep w [a; b] → str_le (val (mem w) b) (val (mem w) a) → (2 ≤ fuel)%nat →
  ∃ w', q_sort fuel w = Some w' ∧ rep w' [b; a] ∧ same_values (mem w) (mem w').
Proof.
  intros Hrep Hle Hfuel. pose proof (rep_NoDup _ _ Hrep) as Hnd.
  assert (a ≠ b) as Hab.
  { apply NoDup_cons in Hnd as [Hnd _]. intros ->. apply Hnd. by left. }
  unfold rep in Hrep. destruct (qref w) as [q|] eqn:Hq; [|done].
  destruct Hrep as ((Hh & ea & Ha & Hb' & eb & Hb & Hend) & Ht & Hsz & Hmax).
  simpl in Hend, Hsz, Ht.
  destruct fuel as [|[|fuel]]; [lia..|].
  assert ((strcmp (value ea) (value eb) <? 0) = false) as Hcmp.
  { apply Z.ltb_ge. unfold str_le, val in Hle. rewrite Ha, Hb in Hle. simpl in Hle.
    rewrite (strcmp_swap (value eb) (value ea)). lia. }
  set (h1 := <[a := ListEle (value ea) None]> (mem w)).
  set (h2 := <[b := ListEle (value eb) (Some a)]> h1).
  assert (h1 !! a = Some (ListEle (value ea) None)) as Ha1
    by apply lookup_insert_eq.
  assert (h1 !! b = Some eb) as Hb1
    by (unfold h1; by rewrite lookup_insert_ne).
  assert (find_half (S fuel) (mem w) (Some a) (Some b) = Some (Some a)) as Hfh.
  { simpl. rewrite Hb. simpl. by rewrite Hend. }
  assert (set_next (mem w) a None = Some h1) as Hset by (by erewrite set_next_Some).
  assert (merge_sort (S fuel) h1 (Some a) = Some (h1, Some a)) as Hleft.
  { apply (merge_sort_short _ _ _ [a]); [|done]. split; [done|]. by eexists. }
  assert (merge_sort (S fuel) h1 (Some b) = Some (h1, Some b)) as Hright.
  { apply (merge_sort_short _ _ _ [b]); [|done]. split; [done|]. by eexists. }
  assert (merge_loop (S fuel) h1 (Some a) Root (Some a) (Some b) = Some (h2, Some b))
    as Hmerge.
  { simpl. rewrite Ha1, Hb1. simpl. rewrite Hcmp. simpl.
    rewrite Hend, merge_loop_right_end. simpl. by erewrite set_next_Some. }
  assert (lseg h2 (Some b) [b; a] None) as Hl2.
  { split; [done|]. eexists. split; [apply lookup_insert_eq|]. simpl.
    split; [done|]. eexists.
    split; [unfold h2; rewrite lookup_insert_ne by done; exact Ha1|done]. }
  assert (merge_sort (S (S fuel)) (mem w) (Some a) = Some (h2, Some b)) as Hsort.
  { rewrite merge_sort_unfold, Ha. cbn [mbind option_bind]. rewrite Hb', Hfh.
    cbn [mbind option_bind]. rewrite Ha. cbn [mbind option_bind]. rewrite Hset.
    cbn [mbind option_bind]. rewrite Hleft. cbn [mbind option_bind].
    rewrite Hb', Hright. cbn [mbind option_bind]. exact Hmerge. }
  unfold q_sort, q_sort_with. rewrite Hq, Hh, Hsort. cbn [mbind option_bind].
  change (tail (Queue (Some b) (tail q) (size q))) with (tail q). rewrite Ht.
  rewrite (tail_walk_spec _ _ _ _ Hl2) by (simpl; lia).
  cbn [mbind option_bind]. eexists. split; [done|]. split.
  - unfold rep. cbn [qref mem head tail size]. split_and!; [exact Hl2|done..].
  - intros c. simpl. unfold h2, h1. destruct (decide (c = b)) as [->|Hcb].
    { by rewrite lookup_insert_eq, Hb. }
    rewrite lookup_insert_ne by done. destruct (decide (c = a)) as [->|Hca].
    { by rewrite lookup_insert_eq, Ha. }
    by rewrite lookup_insert_ne.
Qed.

(** ** The length of a string as an int *)

Lemma to_int_le z : 0 <= z → to_int z <= z.
Proof.
  intros Hz. unfold to_int.
  destruct (Z.lt_ge_cases z (2 ^ 31)) as [Hlt|Hge].
  - rewrite Z.mod_small by lia. lia.
  - pose proof (Z.mod_pos_bound (z + 2 ^ 31) (2 ^ 32)). lia.
Qed.

Lemma len_le s : to_int (size_add (strlen s) 1) <= strlen s + 1.
Proof.
  pose proof (strlen_nonneg s). unfold size_add.
  assert (0 < size_mod) by (pose proof size_mod_big; lia).
  pose proof (Z.mod_pos_bound (strlen s + 1) size_mod).
  pose proof (Z.mod_le (strlen s + 1) size_mod).
  etrans; [apply to_int_le|]; lia.
Qed.

Lemma c_str_no_NUL s : NUL ∉ c_str s.
Proof.
  induction s as [|b s IH]; simpl; [apply not_elem_of_nil|].
  destruct (Byte.eqb b NUL) eqn:E; [apply not_elem_of_nil|].
  apply not_elem_of_cons. split; [|done].
  intros <-. by rewrite (proj2 (byte_eqb_eq NUL NUL)) in E.
Qed.

Lemma c_str_fixed s : NUL ∉ s → c_str s = s.
Proof.
  induction s as [|b s IH]; simpl; [done|].
  intros [Hb Hs]%not_elem_of_cons.
  rewrite (proj2 (byte_eqb_neq b NUL)) by congruence. by rewrite IH.
Qed.

Lemma c_str_prefix s : ∃ t, s = c_str s ++ t.
Proof.
  induction s as [|b s [t IH]]; simpl; [by exists []|].
  destruct (Byte.eqb b NUL); [by eexists|]. exists t. simpl. by rewrite <- IH.
Qed.

Lemma take_c_str n s : (n ≤ length (c_str s))%nat → take n s = take n (c_str s).
Proof.
  intros Hn. destruct (c_str_prefix s) as [t Ht]. rewrite Ht at 1.
  by rewrite take_app_le.
Qed.

(** [int len = strlen (s) + 1]: when both allocations succeed, an
    insertion is defined exactly when [len] is at least one, and it
    then stores the first [len - 1] characters of the string -- all of
    it if the length fits an [int], a shorter string for the lengths
    that wrap round to a positive [len].  For a [len] of zero or less
    [memcpy] runs out of the buffer. *)
Theorem insert_cuts_at_int_len w q s :
  qref w = Some q →
  let len := to_int (size_add (strlen s) 1) in
  let cut := take (Z.to_nat (len - 1)) (c_str s) in
  (len <= 0 →
     q_insert_head true true w s = None ∧ q_insert_tail true true w s = None) ∧
  (1 <= len →
     fits cut ∧
     q_insert_head true true w s = q_insert_head true true w cut ∧
     q_insert_tail true true w s = q_insert_tail true true w cut) ∧
  (fits s → cut = c_str s).
Proof.
  intros Hq len cut. pose proof (len_le s) as Hle. fold len in Hle.
  pose proof (strlen_nonneg s) as Hs0.
  split_and!.
  - intros Hlen. unfold q_insert_head, q_insert_tail. rewrite Hq. simpl.
    fold len. erewrite set_next_Some by apply lookup_insert_eq.
    assert (in_block len = false) as ->; [|done].
    unfold in_block. apply andb_false_iff. left. apply Z.leb_gt. lia.
  - intros Hlen.
    assert (len <= INT_MAX) as Hmax.
    { unfold len, to_int, INT_MAX.
      pose proof (Z.mod_pos_bound (size_add (strlen s) 1 + 2 ^ 31) (2 ^ 32)). lia. }
    assert (c_str cut = cut) as Hcut.
    { apply c_str_fixed. intros Hin%subseteq_take. by apply (c_str_no_NUL s). }
    assert (strlen cut = len - 1) as Hstr.
    { unfold strlen. rewrite Hcut. unfold cut. rewrite length_take.
      unfold strlen in Hle. lia. }
    assert (fits cut) as Hfit by (unfold fits; lia).
    assert (to_int (size_add (strlen cut) 1) = len) as Hlen'.
    { rewrite len_fits by done. lia. }
    assert (copy_of cut len = copy_of s len) as Hcopy.
    { unfold copy_of. f_equal. rewrite to_size_small by lia.
      rewrite (take_c_str _ s) by (unfold strlen in Hle; lia).
      unfold cut. rewrite take_take. f_equal. lia. }
    split; [done|]. unfold q_insert_head, q_insert_tail. rewrite Hq. cbv zeta.
    rewrite Hlen'. fold len. by rewrite Hcopy.
  - intros Hfit. unfold cut, len. rewrite len_fits by done.
    apply take_ge. unfold strlen. lia.
Qed.

End Queue.

(** ** The claims on concrete queues

    [size_t] has 64 bits from here on. *)

Lemma rep_fruit : rep fruit [1; 2; 3]%positive.
Proof.
  unfold rep, fruit; simpl.
  repeat (first [ reflexivity | split | eexists ]). unfold INT_MAX; lia.
Defined.

Lemma rep_greeting : rep greeting [1%positive].
Proof.
  unfold rep, greeting; simpl.
  repeat (first [ reflexivity | split | eexists ]). unfold INT_MAX; lia.
Defined.

Lemma contents_fruit : contents fruit [str "banana"; str "apple"; str "cherry"].
Proof. exists [1; 2; 3]%positive. split; [apply rep_fruit | reflexivity]. Defined.

(** The scenarios of the spec. *)
Example scenario_sort :
  (w ← q_sort 3 fruit; q_read 3 w) = Some [str "apple"; str "banana"; str "cherry"].
Proof. vm_compute. reflexivity. Qed.

Example scenario_quick_sort :
  (w ← q_sort_with false 3 fruit; q_read 3 w)
  = Some [str "apple"; str "banana"; str "cherry"].
Proof. vm_compute. reflexivity. Qed.

Example scenario_insert_tail :
  (t ← run 64 0 [InsertTail true true (str "banana");
                 InsertTail true true (str "apple");
                 InsertTail true true (str "cherry")] (q_new true);
   Some (final (q_new true) t)) = Some fruit.
Proof. vm_compute. reflexivity. Qed.

Example scenario_reverse :
  (t ← run 64 2 [InsertHead true true (str "a"); InsertHead true true (str "b");
                 Reverse] (q_new true);
   q_read 2 (final (q_new true) t)) = Some [str "a"; str "b"].
Proof. vm_compute. reflexivity. Qed.

Example scenario_remove_empty :
  q_remove_head 64 (q_new true) (Some (λ _, NUL)) 8
  = Some (q_new true, Some (λ _, NUL), false).
Proof. reflexivity. Qed.

(** Where the wording of C1 fails.  After a single insertion [size] is
    1, one link from [head] leads to [NULL], and [tail] is the element.
    And an insertion that cannot allocate its element is a call of
    [q_insert_tail] that adds nothing to [size]. *)
Lemma invariants_as_stated_fail :
  (∃ w q,
     run 64 0 [InsertTail true true (str "a")] (q_new true) = Some [(w, Some true)] ∧
     qref w = Some q ∧ size q = 1 ∧
     follow (mem w) (Z.to_nat (size q)) (head q) = Some None ∧
     tail q ≠ None ∧
     ¬ I2_as_stated (mem w) q) ∧
  (∃ w,
     run 64 0 [InsertTail false true (str "a")] (q_new true) = Some [(w, Some false)] ∧
     q_size w = 0 ∧
     q_size w ≠ Z.of_nat (length [InsertTail false true (str "a")]) - 0).
Proof.
  split.
  - eexists _, _. split_and!; [reflexivity..| |].
    + vm_compute. discriminate.
    + unfold I2_as_stated. intros [H _]. vm_compute in H. discriminate.
  - eexists. split_and!; [reflexivity..|]. vm_compute. discriminate.
Qed.

Lemma run_keeps_invariants_witness :
  ∃ t, run 64 8 demo_calls (q_new true) = Some t ∧
       Forall (λ wr, invariants wr.1) t ∧
       q_size (final (q_new true) t) = deltas demo_calls t.
Proof.
  apply (run_keeps_invariants 64 ltac:(lia) true 8 demo_calls).
  - unfold demo_calls. repeat constructor; unfold call_fits, fits, strlen, INT_MAX; simpl; lia.
  - unfold INT_MAX. simpl. lia.
  - simpl. lia.
Defined.

Lemma q_sort_sorted_witness :
  ∃ w' vs',
    q_sort 3 fruit = Some w' ∧ contents w' vs' ∧
    Sorted str_le vs' ∧ vs' ≡ₚ [str "banana"; str "apple"; str "cherry"] ∧
    length vs' = 3%nat ∧ q_size w' = 3 ∧
    (qref fruit = None ∨ (3 ≤ 1)%nat → w' = fruit).
Proof.
  apply (q_sort_sorted 3 fruit [str "banana"; str "apple"; str "cherry"]).
  - apply contents_fruit.
  - simpl. lia.
Defined.

Lemma q_reverse_reverses_witness :
  ∃ w',
    q_reverse 3 fruit = Some w' ∧ rep w' [3; 2; 1]%positive ∧
    map (payload (mem w')) [3; 2; 1]%positive
      = [str "cherry"; str "apple"; str "banana"] ∧
    (∀ q q', qref fruit = Some q → qref w' = Some q' →
             head q' = tail q ∧ tail q' = head q ∧ size q' = size q) ∧
    same_values (mem fruit) (mem w') ∧
    dom (mem w') = dom (mem fruit) ∧
    (∀ a, a ∉ [1; 2; 3]%positive → mem w' !! a = mem fruit !! a) ∧
    (qref fruit = None ∨ [1; 2; 3]%positive = [] → w' = fruit).
Proof.
  apply (q_reverse_reverses 3 fruit [1; 2; 3]%positive).
  - apply rep_fruit.
  - simpl. lia.
Defined.

Lemma sorts_agree_witness :
  ∃ wq wm vs,
    q_sort_with false 3 fruit = Some wq ∧ q_sort_with true 3 fruit = Some wm ∧
    contents wq vs ∧ contents wm vs.
Proof.
  apply (sorts_agree 3 fruit [1; 2; 3]%positive).
  - apply rep_fruit.
  - simpl. lia.
Defined.

(** Where the wording of C5 fails.  On a queue that is not empty and
    with a buffer that is not [NULL], none of the three conditions
    holds, and for [bufsize = 0] the call does not return true:
    [bufsize - 1] is [2^64 - 1], [strncpy] is asked for that many
    bytes, and the call has no result. *)
Lemma remove_head_capacity_zero :
  rep greeting [1%positive] ∧
  qref greeting ≠ None ∧ [1%positive] ≠ [] ∧ Some (λ _ : Z, NUL) ≠ None ∧
  size_sub 64 0 1 = 2 ^ 64 - 1 ∧
  q_remove_head 64 greeting (Some (λ _, NUL)) 0 = None.
Proof.
  split_and!; [apply rep_greeting|discriminate..|reflexivity|].
  vm_compute. reflexivity.
Qed.

Lemma q_remove_head_spec_witness :
  (is_Some (q_remove_head 64 greeting (Some (λ _, NUL)) 3) ↔
     (qref greeting = None ∨ [1%positive] = [] ∨ Some (λ _ : Z, NUL) = None) ∨ 1 <= 3) ∧
  ∃ w' sp' r,
    q_remove_head 64 greeting (Some (λ _, NUL)) 3 = Some (w', sp', r) ∧
    (r = false ↔ qref greeting = None ∨ [1%positive] = [] ∨ Some (λ _ : Z, NUL) = None) ∧
    (r = false → w' = greeting ∧ sp' = Some (λ _, NUL)) ∧
    (r = true →
       ∃ a buf out,
         [1%positive] = a :: [] ∧ Some (λ _ : Z, NUL) = Some buf ∧ sp' = Some out ∧
         rep w' [] ∧ mem w' = delete a (mem greeting) ∧
         q_size w' = q_size greeting - 1 ∧
         (∀ i, 0 <= i < size_sub 64 3 1 →
               out i = nth (Z.to_nat i) (payload (mem greeting) a) NUL) ∧
         out (size_sub 64 3 1) = NUL ∧
         (1 <= 3 < size_mod 64 →
            c_str (peek out (Z.to_nat 3)) =
              take (Z.to_nat (3 - 1)) (payload (mem greeting) a) ∧
            Z.of_nat (length (c_str (peek out (Z.to_nat 3)))) <= 3 - 1 ∧
            out (3 - 1) = NUL) ∧
         (3 = 3 → payload (mem greeting) a = str "hello" →
            c_str (peek out 3) = str "he")).
Proof.
  destruct (q_remove_head_spec 64 ltac:(lia) greeting [1%positive] (Some (λ _, NUL)) 3
              rep_greeting) as [Hdef Hres].
  split; [exact Hdef|]. apply Hres. right. lia.
Defined.

Lemma q_remove_head_capacity_witness :
  (∀ w' sp', q_remove_head 64 greeting (Some (λ _, NUL)) 0 ≠ Some (w', sp', false)) ∧
  (is_Some (q_remove_head 64 greeting (Some (λ _, NUL)) 0) ↔ 1 <= 0) ∧
  (0 = 0 →
     size_sub 64 0 1 = 2 ^ 64 - 1 ∧
     q_remove_head 64 greeting (Some (λ _, NUL)) 0 = None) ∧
  (1 <= 0 →
     size_sub 64 0 1 = 0 - 1 ∧
     ∃ w' out,
       q_remove_head 64 greeting (Some (λ _, NUL)) 0 = Some (w', Some out, true) ∧
       (∀ i, 0 <= i < 0 - 1 →
             out i = nth (Z.to_nat i) (payload (mem greeting) 1%positive) NUL) ∧
       out (0 - 1) = NUL ∧
       (∀ i, i < 0 ∨ 0 - 1 < i → out i = NUL)).
Proof.
  apply (q_remove_head_capacity 64 ltac:(lia) greeting 1%positive [] (λ _, NUL) 0).
  - apply rep_greeting.
  - unfold size_mod. lia.
Defined.

Lemma insert_failure_atomic_witness :
  q_insert_head 64 true false fruit (str "date") = Some (fruit, false) ∧
  q_insert_tail 64 true false fruit (str "date") = Some (fruit, false) ∧
  malloc true (mem fruit) = Some 4%positive ∧
  mem fruit !! 4%positive = None.
Proof.
  destruct (insert_failure_atomic 64 true false fruit (str "date"))
    as (Hh & Ht & _ & _ & Hfree).
  assert (q_insert_head 64 true false fruit (str "date") = Some (fruit, false)) as H.
  { apply Hh. right. right. reflexivity. }
  split_and!.
  - exact H.
  - apply Ht. right. right. reflexivity.
  - reflexivity.
  - apply (Hfree fruit 4%positive); [left; exact H | reflexivity].
Defined.

(** Where the wording of C7 fails: when the buffer is shorter than the
    string, both calls return true and the buffer holds [he]; when the
    element cannot be allocated, both calls return false. *)
Lemma round_trip_truncated :
  (∃ w1 w2 out,
     q_insert_tail 64 true true (q_new true) (str "hello") = Some (w1, true) ∧
     q_remove_head 64 w1 (Some (λ _, NUL)) 3 = Some (w2, Some out, true) ∧
     c_str (peek out 3) = str "he" ∧
     c_str (peek out 3) ≠ c_str (str "hello")) ∧
  (∃ w1 w2 sp,
     q_insert_tail 64 false true (q_new true) (str "hello") = Some (w1, false) ∧
     q_remove_head 64 w1 (Some (λ _, NUL)) 6 = Some (w2, sp, false)).
Proof.
  split.
  - eexists _, _, _. split_and!; [reflexivity..|].
    intros H. vm_compute in H. discriminate.
  - eexists _, _, _. split; reflexivity.
Qed.

(** A string of [2^32] characters is outside what the insertions
    handle: its [int len] is 1 and the queue stores the empty string. *)
Lemma long_string_is_cut :
  ∃ w, q_insert_tail 64 true true (q_new true)
         (repeat "a"%byte (Z.to_nat (2 ^ 32))) = Some (w, true) ∧
       q_read 1 w = Some [[]] ∧
       strlen (repeat "a"%byte (Z.to_nat (2 ^ 32))) = 2 ^ 32.
Proof.
  apply (q_insert_tail_long_string 64 ltac:(lia) (Z.to_nat (2 ^ 32))).
  apply Z2Nat.id. lia.
Qed.

Lemma insert_tail_remove_head_round_trip_witness :
  ∃ w1 w2 out,
    q_insert_tail 64 true true (q_new true) (str "hello") = Some (w1, true) ∧
    q_remove_head 64 w1 (Some (λ _, NUL)) 6 = Some (w2, Some out, true) ∧
    c_str (peek out (Z.to_nat 6)) = c_str (str "hello") ∧
    rep w2 [].
Proof.
  apply (insert_tail_remove_head_round_trip 64 ltac:(lia) (q_new true)
           (Queue None None 0) (str "hello") (λ _, NUL) 6).
  - reflexivity.
  - apply (rep_new true).
  - unfold fits, strlen, INT_MAX. simpl. lia.
  - unfold strlen, size_mod. simpl. lia.
Defined.

Lemma q_reverse_involutive_witness :
  ∃ w1, q_reverse 3 fruit = Some w1 ∧ q_reverse 3 w1 = Some fruit.
Proof.
  apply (q_reverse_involutive 3 fruit [1; 2; 3]%positive).
  - apply rep_fruit.
  - simpl. lia.
Defined.

Lemma q_sort_idempotent_witness :
  ∃ w1 w2 vs,
    q_sort 3 fruit = Some w1 ∧ q_sort 3 w1 = Some w2 ∧
    contents w1 vs ∧ contents w2 vs.
Proof.
  apply (q_sort_idempotent 3 fruit [1; 2; 3]%positive).
  - apply rep_fruit.
  - simpl. lia.
Defined.

(** ** The further properties on concrete queues *)

Lemma q_insert_head_prepends_witness :
  ∃ w' q',
    q_insert_head 64 true true fruit (str "kiwi") = Some (w', true) ∧
    qref w' = Some q' ∧
    contents w' (c_str (str "kiwi") :: [str "banana"; str "apple"; str "cherry"]) ∧
    head q' = Some (fresh (dom (mem fruit))) ∧
    (tail (Queue (Some 1%positive) (Some 3%positive) 3) ≠ None →
       tail q' = tail (Queue (Some 1%positive) (Some 3%positive) 3)) ∧
    size q' = size (Queue (Some 1%positive) (Some 3%positive) 3) + 1.
Proof.
  apply (q_insert_head_prepends 64 ltac:(lia) fruit
           (Queue (Some 1%positive) (Some 3%positive) 3)
           [str "banana"; str "apple"; str "cherry"] (str "kiwi")).
  - apply contents_fruit.
  - reflexivity.
  - unfold fits, strlen, INT_MAX; simpl; lia.
  - unfold INT_MAX; simpl; lia.
Defined.

Lemma q_insert_tail_appends_witness :
  ∃ w' q',
    q_insert_tail 64 true true fruit (str "kiwi") = Some (w', true) ∧
    qref w' = Some q' ∧
    contents w' ([str "banana"; str "apple"; str "cherry"] ++ [c_str (str "kiwi")]) ∧
    tail q' = Some (fresh (dom (mem fruit))) ∧
    (head (Queue (Some 1%positive) (Some 3%positive) 3) ≠ None →
       head q' = head (Queue (Some 1%positive) (Some 3%positive) 3)) ∧
    size q' = size (Queue (Some 1%positive) (Some 3%positive) 3) + 1.
Proof.
  apply (q_insert_tail_appends 64 ltac:(lia) fruit
           (Queue (Some 1%positive) (Some 3%positive) 3)
           [str "banana"; str "apple"; str "cherry"] (str "kiwi")).
  - apply contents_fruit.
  - reflexivity.
  - unfold fits, strlen, INT_MAX; simpl; lia.
  - unfold INT_MAX; simpl; lia.
Defined.

Lemma insert_head_remove_head_restores_witness :
  ∃ w1 out,
    q_insert_head 64 true true fruit (str "kiwi") = Some (w1, true) ∧
    q_remove_head 64 w1 (Some (λ _, NUL)) 8 = Some (fruit, Some out, true) ∧
    (strlen (str "kiwi") < 8 < size_mod 64 →
       c_str (peek out (Z.to_nat 8)) = c_str (str "kiwi")).
Proof.
  apply (insert_head_remove_head_restores 64 ltac:(lia) fruit
           (Queue (Some 1%positive) (Some 3%positive) 3)
           [1; 2; 3]%positive (str "kiwi") (λ _, NUL) 8).
  - apply rep_fruit.
  - reflexivity.
  - unfold fits, strlen, INT_MAX; simpl; lia.
  - unfold INT_MAX; simpl; lia.
  - lia.
Defined.

Lemma rep_new_queue : rep (q_new true) [].
Proof.
  unfold rep, q_new; simpl.
  repeat (first [ reflexivity | split ]). unfold INT_MAX; lia.
Defined.

Lemma run_then_free_restores_witness :
  ∃ t, run 64 8 demo_calls (q_new true) = Some t ∧
       Forall (λ wr, ∃ l1, rep wr.1 l1 ∧ outside wr.1 l1 ∅) t ∧
       q_free 8 (final (q_new true) t) = Some ∅.
Proof.
  apply (run_then_free_restores 64 ltac:(lia) 8 demo_calls (q_new true) [] ∅).
  - apply rep_new_queue.
  - split; intros a Ha; reflexivity.
  - unfold demo_calls. repeat constructor; unfold call_fits, fits, strlen, INT_MAX; simpl; lia.
  - unfold INT_MAX. simpl. lia.
  - simpl. lia.
Defined.

Lemma run_refines_lists_witness :
  ∃ t, run 64 8 demo_calls (q_new true) = Some t ∧
       t.*2 = list_results demo_calls [] ∧
       contents (final (q_new true) t) (list_run demo_calls []).
Proof.
  apply (run_refines_lists 64 ltac:(lia) 8 demo_calls (q_new true) []).
  - exists []. split; [apply rep_new_queue | reflexivity].
  - eexists. reflexivity.
  - unfold demo_calls. repeat constructor; unfold call_fits, fits, strlen, INT_MAX; simpl; lia.
  - unfold INT_MAX. simpl. lia.
  - simpl. lia.
Defined.

Lemma quick_sort_sorts_in_place_witness :
  ∃ h', quick_sort 2 (mem fruit) (Some 1%positive) (Some 2%positive) = Some h' ∧
        lseg h' (Some 1%positive) ([] ++ [1; 2]%positive ++ [3%positive]) None ∧
        same_links (mem fruit) h' ∧
        (∀ c, c ∉ [1; 2]%positive → h' !! c = mem fruit !! c) ∧
        map (payload h') [1; 2]%positive
          = sorted_strings (map (payload (mem fruit)) [1; 2]%positive).
Proof.
  apply (quick_sort_sorts_in_place 2 (mem fruit) (Some 1%positive)
           [] [1; 2]%positive [3%positive] 1%positive 2%positive).
  - simpl. repeat (first [ reflexivity | split | eexists ]).
  - reflexivity.
  - reflexivity.
  - simpl. lia.
Defined.

Lemma rep_twins : rep twins [1; 2]%positive.
Proof.
  unfold rep, twins; simpl.
  repeat (first [ reflexivity | split | eexists ]). unfold INT_MAX; lia.
Defined.

Lemma q_sort_swaps_equal_pair_witness :
  ∃ w', q_sort 2 twins = Some w' ∧ rep w' [2; 1]%positive ∧
        same_values (mem twins) (mem w').
Proof.
  apply (q_sort_swaps_equal_pair 2 twins 1%positive 2%positive).
  - apply rep_twins.
  - unfold str_le. vm_compute. intros H. discriminate H.
  - lia.
Defined.

Lemma insert_cuts_at_int_len_witness :
  let len := to_int (size_add 64 (strlen (str "kiwi")) 1) in
  let cut := take (Z.to_nat (len - 1)) (c_str (str "kiwi")) in
  (len <= 0 →
     q_insert_head 64 true true (q_new true) (str "kiwi") = None ∧
     q_insert_tail 64 true true (q_new true) (str "kiwi") = None) ∧
  (1 <= len →
     fits cut ∧
     q_insert_head 64 true true (q_new true) (str "kiwi")
       = q_insert_head 64 true true (q_new true) cut ∧
     q_insert_tail 64 true true (q_new true) (str "kiwi")
       = q_insert_tail 64 true true (q_new true) cut) ∧
  (fits (str "kiwi") → cut = c_str (str "kiwi")).
Proof.
  apply (insert_cuts_at_int_len 64 ltac:(lia) (q_new true) (Queue None None 0)
           (str "kiwi")).
  reflexivity.
Defined.
